(** * The AFL LLVM-mode instrumentation pass (llvm_mode/afl-llvm-pass.so.cc)

    A shallow embedding of [AFLCoverage::runOnModule]: the instrumentation
    ratio, the persistent block counter kept in /tmp/.cur_id, the edge
    coverage code, the branch and switch distance records and the block
    reporter, together with a small execution model of the emitted code.

    What is outside the pass is modelled as follows.
    - A module is the list of the bodies of its functions, a body the list
      of its blocks.  The two global variables the pass creates in the
      module (lines 111-117) and the declarations that [getOrInsertFunction]
      adds to it for the collector (lines 185, 233, 242) are not part of the
      bodies: the emitted code refers to them by their names.
    - A basic block is the list of its instructions; an [IRBuilder] is the
      index of the instruction it is anchored at, and inserting through one
      builder moves the anchors of the others that are at or after it.
    - The banner and the summary written to the terminal have no effect on
      the module or on the counter and are left out.
    - [MAP_SIZE] and [AFL_R] come from headers that are not among the
      sources: the first is a parameter, the second is modelled from the
      specification.  [getenv], [sscanf], [random], [open], [read] and
      [write] are the C library's; their results are fields of [World].
    - The emitted code is checked by [verify], which has the rules of LLVM's
      verifier for the arithmetic the pass creates, and run by [exec] over
      the global variables, the bytes of memory and the values defined so
      far; the two functions of the collector append to a list of
      reports. *)

From Stdlib Require Import ZArith Lia Ascii String List.
From stdpp Require Import base decidable option numbers list strings.

Local Open Scope Z_scope.

(** ** Machine integers *)

(** A [w]-bit unsigned integer is a [Z] reduced modulo [2^w]. *)
Definition wrap (w : N) (z : Z) : Z := z mod 2 ^ Z.of_N w.

(** [u32] arithmetic of the pass ([CurId], [CurLabel], [NumCases]). *)
Definition wrap32 (z : Z) : Z := wrap 32 z.

(** The two's complement reading of a [w]-bit pattern. *)
Definition signed (w : N) (z : Z) : Z :=
  let u := wrap w z in
  if decide (u < 2 ^ (Z.of_N w - 1)) then u else u - 2 ^ Z.of_N w.

(** ** The fragment of the LLVM IR data model the pass touches *)

Inductive Ty : Type :=
| IntegerTy (bits : N)
| PointerTy
| FloatTy
| VectorTy (elt : N) (num : N)
| VoidTy.

Definition Int8Ty : Ty := IntegerTy 8.
Definition Int32Ty : Ty := IntegerTy 32.
Definition Int64Ty : Ty := IntegerTy 64.

(** [Type::getScalarSizeInBits]: the width of an integer, or of the elements
    of an integer vector; 0 for types without a primitive size. *)
Definition getScalarSizeInBits (t : Ty) : N :=
  match t with
  | IntegerTy b => b
  | VectorTy e _ => e
  | FloatTy => 32
  | PointerTy | VoidTy => 0
  end.

Definition isIntegerTy (t : Ty) : bool :=
  match t with IntegerTy _ => true | _ => false end.

Inductive BinOp : Type := Xor | Add | Sub.
Inductive CastOp : Type := ZExt | SExt | Trunc.
Inductive Predicate : Type := ICMP_EQ | ICMP_NE | ICMP_OTHER (code : N).

(** Values are what an operand can point to.  Constants are uniqued by LLVM,
    blocks, globals and the values the compiled program defines are
    identified by a name, so pointer equality of operands is equality of
    these terms.  An instruction that computes a value is that value. *)
Inductive Value : Type :=
| ConstantInt (bits : N) (val : Z)
| GlobalVariable (name : string)
| BasicBlockRef (label : N)
| Opaque (id : N) (ty : Ty)
| BinaryOperator (opc : BinOp) (a b : Value)
| CastInst (opc : CastOp) (a : Value) (dest : Ty)
| ICmpInst (pred : Predicate) (a b : Value)
| LoadInst (ty : Ty) (ptr : Value)
| GetElementPtrInst (ptr idx : Value).

Inductive Instruction : Type :=
| Def (v : Value)
| StoreInst (val ptr : Value)
| CallInst (callee : string) (args : list Value)
| BranchInst (ops : list Value)
| SwitchInst (ops : list Value)
| PHINode (id : N) (ty : Ty)
| LandingPadInst (id : N)
| OtherInst (id : N).

Abbreviation BasicBlock := (list Instruction).
Abbreviation Function := (list BasicBlock).
Abbreviation Module := (list Function).

#[global] Instance Ty_eq_dec : EqDecision Ty.
Proof. solve_decision. Defined.
#[global] Instance BinOp_eq_dec : EqDecision BinOp.
Proof. solve_decision. Defined.
#[global] Instance CastOp_eq_dec : EqDecision CastOp.
Proof. solve_decision. Defined.
#[global] Instance Predicate_eq_dec : EqDecision Predicate.
Proof. solve_decision. Defined.
#[global] Instance Value_eq_dec : EqDecision Value.
Proof. solve_decision. Defined.
#[global] Instance Instruction_eq_dec : EqDecision Instruction.
Proof. solve_decision. Defined.

Fixpoint getType (v : Value) : Ty :=
  match v with
  | ConstantInt b _ => IntegerTy b
  | GlobalVariable _ => PointerTy
  | BasicBlockRef _ => VoidTy
  | Opaque _ t => t
  | BinaryOperator _ a _ => getType a
  | CastInst _ _ t => t
  | ICmpInst _ _ _ => IntegerTy 1
  | LoadInst t _ => t
  | GetElementPtrInst _ _ => PointerTy
  end.

(** *** The switch instruction

    Operand 0 is the condition, operand 1 the default destination, operand
    [2 + 2 i] the value of case [i] and operand [3 + 2 i] its destination. *)

Definition getNumCases (ops : list Value) : Z :=
  wrap32 (Z.of_nat (length ops) / 2 - 1).

Definition mkSwitch (cond : Value) (default : Value)
    (cases : list (Value * Value)) : list Value :=
  cond :: default :: flat_map (fun c => [c.1; c.2]) cases.

(** ** Case labels (lines 189-204) *)

(** The inner loop over [J], for a fixed [I]. *)
Definition label_step (ops : list Value) (I : nat) (CurLabel : Z)
    (acc : list Z * bool) (J : nat) : list Z * bool :=
  let A0 := ops !! (1 + 2 * I)%nat in
  let A1 := ops !! (1 + 2 * J)%nat in
  if bool_decide (A0 = A1) && bool_decide (acc.1 !!! J = 0)
  then (<[J := CurLabel]> acc.1, true)
  else acc.

Definition label_inner (ops : list Value) (NumCases : nat) (I : nat)
    (CurLabel : Z) (Labels : list Z) : list Z * bool :=
  foldl (label_step ops I CurLabel) (Labels, false) (seq 0 NumCases).

(** The body of the outer loop over [I]. *)
Definition label_outer (ops : list Value) (NumCases : nat)
    (st : list Z * Z) (I : nat) : list Z * Z :=
  let '(Labels, Updated) := label_inner ops NumCases I st.2 st.1 in
  (Labels, if Updated then wrap32 (st.2 + 1) else st.2).

Definition compute_labels (ops : list Value) : list Z :=
  let NumCases := Z.to_nat (wrap32 (getNumCases ops + 1)) in
  (foldl (label_outer ops NumCases) (replicate NumCases 0, 1)
         (seq 0 NumCases)).1.

(** What the label loop compares: the default destination followed by the
    destination of every case. *)
Definition label_keys (ops : list Value) : list (option Value) :=
  map (fun I => ops !! (1 + 2 * I)%nat)
      (seq 0 (Z.to_nat (wrap32 (getNumCases ops + 1)))).

(** Labelling in first-occurrence order, as the specification words it: a
    key not yet seen gets the next unused label, starting at 1, and a
    repeated key gets the label of its first occurrence. *)
Fixpoint index_of {A} `{EqDecision A} (x : A) (l : list A) : option nat :=
  match l with
  | [] => None
  | y :: l' => if decide (x = y) then Some 0%nat else S <$> index_of x l'
  end.

Fixpoint label_pass {A} `{EqDecision A} (seen : list A) (ks : list A)
    : list Z :=
  match ks with
  | [] => []
  | k :: ks' =>
      match index_of k seen with
      | Some n => Z.of_nat (S n) :: label_pass seen ks'
      | None => Z.of_nat (S (length seen)) :: label_pass (seen ++ [k]) ks'
      end
  end.

Definition first_occurrence_labels {A} `{EqDecision A} (ks : list A)
    : list Z :=
  label_pass [] ks.

(** ** IRBuilder *)

(** A builder is anchored at an instruction of the block, here by its index:
    every created instruction goes right before the anchor, which moves one
    place down.  The builder's constant folder, which hands back a constant
    instead of creating an instruction when every operand is a constant, is
    left out: it changes no value that the emitted code computes. *)
Record IRBuilder : Type := mkIRB { BB : BasicBlock; InsertPt : nat }.

Definition Insert (irb : IRBuilder) (i : Instruction) : IRBuilder :=
  {| BB := take (InsertPt irb) (BB irb) ++ i :: drop (InsertPt irb) (BB irb);
     InsertPt := S (InsertPt irb) |}.

Definition InsertAll (irb : IRBuilder) (code : list Instruction) : IRBuilder :=
  foldl Insert irb code.

(** A second builder, anchored at the instruction at index [pos], inserts
    [code] into the block of [irb]; the anchor of [irb] keeps designating
    the same instruction, so its index moves when it is at or after [pos]. *)
Definition InsertBefore (pos : nat) (code : list Instruction) (irb : IRBuilder)
    : IRBuilder :=
  {| BB := BB (InsertAll {| BB := BB irb; InsertPt := pos |} code);
     InsertPt := if decide (pos ≤ InsertPt irb)%nat
                 then (InsertPt irb + length code)%nat else InsertPt irb |}.

Fixpoint getFirstNonPHI (bb : BasicBlock) : nat :=
  match bb with
  | PHINode _ _ :: bb' => S (getFirstNonPHI bb')
  | _ => 0%nat
  end.

(** [BasicBlock::getFirstInsertionPt]: past the PHI nodes and past a landing
    pad that follows them. *)
Definition getFirstInsertionPt (bb : BasicBlock) : nat :=
  let n := getFirstNonPHI bb in
  match bb !! n with
  | Some (LandingPadInst _) => S n
  | _ => n
  end.

(** [IRBuilder::CreateZExt] and [IRBuilder::CreateIntCast] hand back their
    argument when it already has the destination type. *)
Definition CreateZExt (V : Value) (DestTy : Ty) : Value * list Instruction :=
  if decide (getType V = DestTy) then (V, [])
  else (CastInst ZExt V DestTy, [Def (CastInst ZExt V DestTy)]).

Definition CreateIntCast (V : Value) (DestTy : Ty) (isSigned : bool)
    : Value * list Instruction :=
  if decide (getType V = DestTy) then (V, [])
  else
    let opc :=
      if decide (getScalarSizeInBits DestTy < getScalarSizeInBits (getType V))%N
      then Trunc else if isSigned then SExt else ZExt in
    (CastInst opc V DestTy, [Def (CastInst opc V DestTy)]).

(** ** Edge coverage (lines 140-169) *)

Definition AFLMapPtr : Value := GlobalVariable "__afl_area_ptr".
Definition AFLPrevLoc : Value := GlobalVariable "__afl_prev_loc".

Definition edge_code (cur_loc : Z) : list Instruction :=
  let CurLoc := ConstantInt 32 cur_loc in
  let PrevLoc := LoadInst Int32Ty AFLPrevLoc in
  let '(PrevLocCasted, zext) := CreateZExt PrevLoc Int32Ty in
  let MapPtr := LoadInst PointerTy AFLMapPtr in
  let Idx := BinaryOperator Xor PrevLocCasted CurLoc in
  let MapPtrIdx := GetElementPtrInst MapPtr Idx in
  let Counter := LoadInst Int8Ty MapPtrIdx in
  let Incr := BinaryOperator Add Counter (ConstantInt 8 1) in
  [Def PrevLoc] ++ zext ++
  [Def MapPtr; Def Idx; Def MapPtrIdx; Def Counter; Def Incr;
   StoreInst Incr MapPtrIdx;
   StoreInst (ConstantInt 32 (Z.shiftr cur_loc 1)) AFLPrevLoc].

(** ** Distance records (lines 176-240) *)

#[global] Instance Value_inhabited : Inhabited Value :=
  populate (ConstantInt 0 0).

Definition getCondition (ops : list Value) : Value := ops !!! 0%nat.

(** [SI->cases()]: case [i] has the value at operand [2 + 2 i]. *)
Definition cases (ops : list Value) : list Value :=
  map (fun i => ops !!! (2 + 2 * i)%nat) (seq 0 (Z.to_nat (getNumCases ops))).

Definition insert_distance (CurId : Z) (Case : Value) (Distance : Value)
    : Instruction :=
  CallInst "insert_distance" [ConstantInt 32 CurId; Case; Distance].

(** The loop of lines 208-217; [Inc] counts the cases done, [DefaultDis] is
    the running sum. *)
Fixpoint switch_cases (CurId : Z) (Cond : Value) (Labels : list Z)
    (cs : list Value) (Inc : nat) (DefaultDis : Value)
    : list Instruction * Value :=
  match cs with
  | [] => ([], DefaultDis)
  | CaseVal :: cs' =>
      let X := BinaryOperator Xor Cond CaseVal in
      let '(Distance, cast) := CreateIntCast X Int32Ty false in
      let Case := ConstantInt 32 (Labels !!! (Inc + 1)%nat) in
      let NotCovered := ICmpInst ICMP_NE Distance (ConstantInt 32 0) in
      let DefaultDis' := BinaryOperator Add DefaultDis NotCovered in
      let '(code, D) :=
        switch_cases CurId Cond Labels cs' (S Inc) DefaultDis' in
      ([Def X] ++ cast ++
       [insert_distance CurId Case Distance; Def NotCovered; Def DefaultDis']
       ++ code, D)
  end.

Definition switch_code (CurId : Z) (ops : list Value) : list Instruction :=
  let Cond := getCondition ops in
  if decide (getScalarSizeInBits (getType Cond)
             ≤ getScalarSizeInBits Int64Ty)%N
  then
    let Labels := compute_labels ops in
    let '(code, DefaultDis) :=
      switch_cases CurId Cond Labels (cases ops) 0 (ConstantInt 32 0) in
    let DefaultDis' :=
      BinaryOperator Sub (ConstantInt 32 (getNumCases ops)) DefaultDis in
    code ++ [Def DefaultDis';
             insert_distance CurId (ConstantInt 32 (Labels !!! 0%nat))
               DefaultDis']
  else [].

Definition icmp_code (CurId : Z) (A0 A1 : Value) : list Instruction :=
  if isIntegerTy (getType A0) then
    if decide (getScalarSizeInBits (getType A0)
               ≤ getScalarSizeInBits Int64Ty)%N
    then
      let X := BinaryOperator Xor A0 A1 in
      let '(Distance, cast) := CreateIntCast X Int32Ty false in
      [Def X] ++ cast ++ [insert_distance CurId (ConstantInt 32 0) Distance]
    else []
  else [].

Definition isConditional (ops : list Value) : bool :=
  bool_decide (length ops = 3%nat).

(** [IRB] is the builder of line 134; [It] walks back from the end of the
    block as the block stands when line 176 is reached. *)
Definition distance_analyzer (CurId : Z) (IRB : IRBuilder) : IRBuilder :=
  if decide (2 < length (BB IRB))%nat then
    let It := (length (BB IRB) - 1)%nat in
    let IsConditionalBr :=
      match BB IRB !! It with
      | Some (BranchInst ops) => isConditional ops
      | _ => false
      end in
    let '(IRB, It) :=
      match BB IRB !! It with
      | Some (SwitchInst ops) =>
          let code := switch_code CurId ops in
          (InsertBefore It code IRB, (It + length code)%nat)
      | _ => (IRB, It)
      end in
    let It := (It - 1)%nat in
    match BB IRB !! It with
    | Some (Def (ICmpInst _ A0 A1)) =>
        if IsConditionalBr
        then InsertBefore It (icmp_code CurId A0 A1) IRB
        else IRB
    | _ => IRB
    end
  else IRB.

Definition insert_block (CurId : Z) : Instruction :=
  CallInst "insert_block" [ConstantInt 32 CurId].

(** ** The pass *)

Record PassState : Type :=
  mkPassState { CurId : Z; inst_blocks : Z; rand_calls : nat }.

Inductive Outcome (A : Type) : Type :=
| FATAL (msg : string)
| Done (a : A).
Arguments FATAL {A} msg.
Arguments Done {A} a.

(** The world outside the pass: the environment variable, the C library's
    [random()], and the counter file with the two ways the system calls on
    it can fail. *)
Record World : Type := mkWorld {
  AFL_INST_RATIO : option string;
  random : nat -> N;
  cur_id_file : option (list Z);
  open_ok : bool;
  write_ok : bool
}.

(** Modelled from the spec: the macro [AFL_R] of the header that is not
    part of the sources; [AFL_R(x)] draws from [[0, x)], here from the next
    output of [random()]. *)
Definition AFL_R (x : Z) (r : N) : Z := Z.of_N r mod x.

(** [sscanf(s, "%u", &x)] of the C library: white space, an optional sign,
    decimal digits; what follows the digits is not looked at.  [None] when
    no number was converted, else the number as it is stored in an
    [unsigned int].  The digits are converted as [strtoul] converts them
    where [unsigned long] has 64 bits: a number that does not fit gives
    [ULONG_MAX], a minus sign negates modulo [2^64]; [sscanf] then stores
    the low 32 bits. *)
Definition is_space (c : ascii) : bool :=
  let n := nat_of_ascii c in
  bool_decide (n = 32 ∨ (9 ≤ n ∧ n ≤ 13))%nat.

Definition digit_of (c : ascii) : option Z :=
  let n := Z.of_nat (nat_of_ascii c) in
  if decide (48 ≤ n ∧ n ≤ 57) then Some (n - 48) else None.

Fixpoint skip_spaces (s : string) : string :=
  match s with
  | String c s' => if is_space c then skip_spaces s' else s
  | EmptyString => s
  end.

Fixpoint scan_digits (acc : option Z) (s : string) : option Z :=
  match s with
  | String c s' =>
      match digit_of c with
      | Some d => scan_digits (Some (10 * default 0 acc + d)) s'
      | None => acc
      end
  | EmptyString => acc
  end.

Definition strtoul (negative : bool) (n : Z) : Z :=
  if decide (2 ^ 64 ≤ n) then 2 ^ 64 - 1
  else wrap 64 (if negative then - n else n).

Definition sscanf_u (s : string) : option Z :=
  match skip_spaces s with
  | String "-" s' => (fun n => wrap32 (strtoul true n)) <$> scan_digits None s'
  | String "+" s' => (fun n => wrap32 (strtoul false n)) <$> scan_digits None s'
  | s' => (fun n => wrap32 (strtoul false n)) <$> scan_digits None s'
  end.

(** Lines 97-106. *)
Definition decide_ratio (env : option string) : Outcome Z :=
  match env with
  | None => Done 100
  | Some inst_ratio_str =>
      match sscanf_u inst_ratio_str with
      | Some inst_ratio =>
          if decide (inst_ratio = 0 ∨ 100 < inst_ratio)
          then FATAL "Bad value of AFL_INST_RATIO (must be between 1 and 100)"
          else Done inst_ratio
      | None => FATAL "Bad value of AFL_INST_RATIO (must be between 1 and 100)"
      end
  end.

(** The four bytes of a [u32] in memory, least significant first. *)
Definition u32_of_bytes (bs : list Z) : Z :=
  foldr (fun b acc => wrap 8 b + 256 * acc) 0 bs.

Definition bytes_of_u32 (x : Z) : list Z :=
  [wrap 8 x; wrap 8 (x / 2 ^ 8); wrap 8 (x / 2 ^ 16); wrap 8 (x / 2 ^ 24)].

Section Pass.

(** [MAP_SIZE] is [1 << MAP_SIZE_POW2] in the configuration header, which is
    not part of the sources; the exponent is a parameter here. *)
Variable MAP_SIZE_POW2 : Z.

Definition MAP_SIZE : Z := Z.shiftl 1 MAP_SIZE_POW2.

Variable w : World.

(** The body of the loop over the blocks (lines 133-243). *)
Definition instrument_block (inst_ratio : Z) (st : PassState)
    (bb : BasicBlock) : PassState * BasicBlock :=
  let IRB := {| BB := bb; InsertPt := getFirstInsertionPt bb |} in
  if decide (inst_ratio ≤ AFL_R 100 (random w (rand_calls st))) then
    ({| CurId := CurId st; inst_blocks := inst_blocks st;
        rand_calls := S (rand_calls st) |}, bb)
  else
    let cur_loc := AFL_R MAP_SIZE (random w (S (rand_calls st))) in
    let IRB := InsertAll IRB (edge_code cur_loc) in
    let CurId' := wrap32 (CurId st + 1) in
    let IRB := distance_analyzer CurId' IRB in
    let IRB := Insert IRB (insert_block CurId') in
    ({| CurId := CurId'; inst_blocks := inst_blocks st + 1;
        rand_calls := S (S (rand_calls st)) |}, BB IRB).

(** A loop over a list that threads the state of the pass. *)
Fixpoint for_each {S A B : Type} (f : S -> A -> S * B) (s : S) (l : list A)
    : S * list B :=
  match l with
  | [] => (s, [])
  | a :: l' =>
      let '(s1, b) := f s a in
      let '(s2, bs) := for_each f s1 l' in
      (s2, b :: bs)
  end.

Definition instrument_module (inst_ratio : Z) (st : PassState) (M : Module)
    : PassState * Module :=
  for_each (for_each (instrument_block inst_ratio)) st M.

(** [runOnModule]: the function bodies after the pass and the new contents
    of the counter file, or the fatal error that ends the compilation. *)
Definition runOnModule (M : Module) : Outcome (Module * list Z) :=
  match decide_ratio (AFL_INST_RATIO w) with
  | FATAL msg => FATAL msg
  | Done inst_ratio =>
      if negb (open_ok w) then FATAL "Unable to create /tmp/.cur_id"
      else
        let file := default [] (cur_id_file w) in
        let got := take 4 file in
        if decide (length got < 4)%nat then FATAL "Short read /tmp/.cur_id"
        else
          let st0 := {| CurId := u32_of_bytes got; inst_blocks := 0;
                        rand_calls := 0 |} in
          let '(st, M') := instrument_module inst_ratio st0 M in
          if negb (write_ok w) then FATAL "Short write .cur_id"
          else Done (M', bytes_of_u32 (CurId st) ++ drop 4 file)
  end.

End Pass.

(** ** Running the emitted code *)

Inductive Report : Type :=
| BlockReport (id : Z)
| DistanceReport (id label dist : Z).

(** The state of the instrumented program as far as the emitted code sees
    it: the global variables, the bytes of memory, the values the executed
    instructions have defined, and what the collector was told. *)
Record Runtime : Type := mkRuntime {
  globals : string -> Z;
  memory : Z -> Z;
  ssa : Value -> Z;
  reports : list Report
}.

Definition upd {K V : Type} `{EqDecision K} (f : K -> V) (k : K) (v : V)
    : K -> V :=
  fun k' => if decide (k' = k) then v else f k'.

Definition widthOf (v : Value) : N := getScalarSizeInBits (getType v).

Definition binop (opc : BinOp) (x y : Z) : Z :=
  match opc with
  | Xor => Z.lxor x y
  | Add => x + y
  | Sub => x - y
  end.

(** The value of an operand.  What the program or a load defined is read
    from [env]; the arithmetic the pass emitted is computed from its
    operands.  A binary operator computes on two operands of one type.  One
    whose operands differ in type, as the sum of line 215 does, is no
    instruction of LLVM's: it has no value of its own here, only what [env]
    holds for it. *)
Fixpoint eval (env : Value -> Z) (v : Value) : Z :=
  match v with
  | ConstantInt b z => wrap b z
  | BinaryOperator opc a b =>
      if decide (getType a = getType b)
      then wrap (widthOf a) (binop opc (eval env a) (eval env b))
      else wrap (widthOf a) (env v)
  | CastInst ZExt a t => wrap (getScalarSizeInBits t) (eval env a)
  | CastInst SExt a t =>
      wrap (getScalarSizeInBits t) (signed (widthOf a) (eval env a))
  | CastInst Trunc a t => wrap (getScalarSizeInBits t) (eval env a)
  | ICmpInst ICMP_EQ a b => if decide (eval env a = eval env b) then 1 else 0
  | ICmpInst ICMP_NE a b => if decide (eval env a = eval env b) then 0 else 1
  | ICmpInst (ICMP_OTHER _) _ _ => wrap 1 (env v)
  | GetElementPtrInst p i => eval env p + signed (widthOf i) (eval env i)
  | Opaque _ (IntegerTy b) | LoadInst (IntegerTy b) _ => wrap b (env v)
  | _ => env v
  end.

Definition exec (rt : Runtime) (i : Instruction) : Runtime :=
  match i with
  | Def (LoadInst t p as v) =>
      let x := match p with
               | GlobalVariable g => globals rt g
               | _ => memory rt (eval (ssa rt) p)
               end in
      {| globals := globals rt; memory := memory rt;
         ssa := upd (ssa rt) v x; reports := reports rt |}
  | StoreInst val (GlobalVariable g) =>
      {| globals := upd (globals rt) g (eval (ssa rt) val);
         memory := memory rt; ssa := ssa rt; reports := reports rt |}
  | StoreInst val p =>
      {| globals := globals rt;
         memory := upd (memory rt) (eval (ssa rt) p) (eval (ssa rt) val);
         ssa := ssa rt; reports := reports rt |}
  | CallInst "insert_block" [a] =>
      {| globals := globals rt; memory := memory rt; ssa := ssa rt;
         reports := reports rt ++ [BlockReport (eval (ssa rt) a)] |}
  | CallInst "insert_distance" [a; b; c] =>
      {| globals := globals rt; memory := memory rt; ssa := ssa rt;
         reports := reports rt ++
           [DistanceReport (eval (ssa rt) a) (eval (ssa rt) b)
              (eval (ssa rt) c)] |}
  | _ => rt
  end.

Definition run (rt : Runtime) (code : list Instruction) : Runtime :=
  foldl exec rt code.

(** ** The verifier *)

(** LLVM checks every instruction of a module before it generates code for
    it, and gives up on a module that fails.  These are its rules for the
    operators the pass creates.  The two operands of a binary operator have
    the same type, and for the integer operators this is an integer or a
    vector of integers.  The two operands of a comparison have the same
    type, integers, vectors of integers or pointers.  A cast goes from an
    integer to an integer, or from a vector of integers to one of the same
    length, to more bits for [zext] and [sext] and to fewer for [trunc]. *)
Definition isIntOrIntVectorTy (t : Ty) : bool :=
  match t with
  | IntegerTy _ | VectorTy _ _ => true
  | _ => false
  end.

Definition visitBinaryOperator (a b : Value) : bool :=
  bool_decide (getType a = getType b) && isIntOrIntVectorTy (getType a).

Definition visitICmpInst (a b : Value) : bool :=
  bool_decide (getType a = getType b) &&
  (isIntOrIntVectorTy (getType a) || bool_decide (getType a = PointerTy)).

Definition visitCastInst (opc : CastOp) (SrcTy DestTy : Ty) : bool :=
  match SrcTy, DestTy with
  | IntegerTy _, IntegerTy _ => true
  | VectorTy _ n, VectorTy _ m => bool_decide (n = m)
  | _, _ => false
  end &&
  match opc with
  | Trunc =>
      bool_decide (getScalarSizeInBits DestTy < getScalarSizeInBits SrcTy)%N
  | ZExt | SExt =>
      bool_decide (getScalarSizeInBits SrcTy < getScalarSizeInBits DestTy)%N
  end.

Definition visit (i : Instruction) : bool :=
  match i with
  | Def (BinaryOperator _ a b) => visitBinaryOperator a b
  | Def (ICmpInst _ a b) => visitICmpInst a b
  | Def (CastInst opc a t) => visitCastInst opc (getType a) t
  | _ => true
  end.

Definition verify (code : list Instruction) : bool := forallb visit code.

(** ** Reading the instrumentation back from a block *)

Definition reporter_id (i : Instruction) : option Z :=
  match i with
  | CallInst f args =>
      if decide (f = "insert_block") then
        match args with
        | [ConstantInt 32 id] => Some id
        | _ => None
        end
      else None
  | _ => None
  end.

Definition distance_id (i : Instruction) : option Z :=
  match i with
  | CallInst f args =>
      if decide (f = "insert_distance") then
        match args with
        | ConstantInt 32 id :: _ => Some id
        | _ => None
        end
      else None
  | _ => None
  end.

Definition is_collector_call (i : Instruction) : bool :=
  match i with
  | CallInst f _ =>
      bool_decide (f = "insert_block" ∨ f = "insert_distance")
  | _ => false
  end.

Definition reporter_ids (bb : BasicBlock) : list Z := omap reporter_id bb.
Definition distance_ids (bb : BasicBlock) : list Z := omap distance_id bb.

(** ** Notions used to state the properties *)

(** The label a key has once the keys of [seen] are numbered, 0 when it is
    not among them. *)
Definition lab {K} `{EqDecision K} (seen : list K) (k : K) : Z :=
  match index_of k seen with
  | Some p => Z.of_nat (S p)
  | None => 0
  end.

Definition see {K} `{EqDecision K} (seen : list K) (k : K) : list K :=
  match index_of k seen with
  | Some _ => seen
  | None => seen ++ [k]
  end.

(** The operand the label loop reads at index [I], and the operands it
    ranges over in [n] iterations. *)
Definition label_key (ops : list Value) (I : nat) : option Value :=
  ops !! (1 + 2 * I)%nat.

Definition loop_keys (ops : list Value) (n : nat) : list (option Value) :=
  map (label_key ops) (seq 0 n).

(** A [w]-bit value cast to 32 bits without sign: zero-extended when
    narrower, cut to its low 32 bits when wider. *)
Definition uintcast32 (w : N) (x : Z) : Z := wrap 32 (wrap w x).

(** The value of the [Distance] operand built from [A] and [B] (lines
    210-211 and 231-232). *)
Definition distance (env : Value -> Z) (A B : Value) : Z :=
  eval env (CreateIntCast (BinaryOperator Xor A B) Int32Ty false).1.

(** The runtime state after the collector was told [rs]. *)
Definition log (rt : Runtime) (rs : list Report) : Runtime :=
  {| globals := globals rt; memory := memory rt; ssa := ssa rt;
     reports := reports rt ++ rs |}.

(** The block identifier a call to the collector carries. *)
Definition call_id (i : Instruction) : option Z :=
  match reporter_id i with
  | Some id => Some id
  | None => distance_id i
  end.

(** Every call to the collector in [bb] carries the identifier [id]. *)
Definition tagged (id : Z) (i : Instruction) : Prop :=
  is_collector_call i = true -> call_id i = Some id.

(** The identifiers of the reporter calls of a module, in the order in which
    the pass visits the blocks. *)
Definition module_reporter_ids (M : Module) : list Z :=
  concat (map reporter_ids (concat M)).

(** The reporter call comes after every distance record call of the
    block. *)
Definition reporter_last (bb : BasicBlock) : Prop :=
  ∀ (i j : nat) (r d : Instruction),
    bb !! i = Some r -> is_Some (reporter_id r) ->
    bb !! j = Some d -> is_Some (distance_id d) -> (j < i)%nat.

Definition report_label (r : Report) : option Z :=
  match r with
  | DistanceReport _ label _ => Some label
  | BlockReport _ => None
  end.

(** A block of the program before the pass has run: it does not call the
    collector. *)
Definition uninstrumented (bb : BasicBlock) : Prop :=
  Forall (fun i => is_collector_call i = false) bb.

(** The identifiers [c + 1], ..., [c + k] of a [u32] counter. *)
Definition ids_from (c : Z) (k : nat) : list Z :=
  (fun j => wrap32 (c + Z.of_nat j)) <$> seq 1 k.

(** *** The shape of the environment value

    The notions below describe a value of [AFL_INST_RATIO] by its
    characters, without reference to [sscanf_u]. *)

Fixpoint all_chars (p : ascii -> bool) (s : string) : bool :=
  match s with
  | String c s' => p c && all_chars p s'
  | EmptyString => true
  end.

Definition starts_with (p : ascii -> bool) (s : string) : bool :=
  match s with
  | String c _ => p c
  | EmptyString => false
  end.

Definition is_digit (c : ascii) : bool :=
  bool_decide (48 ≤ nat_of_ascii c ≤ 57)%nat.

Definition is_sign (c : ascii) : bool :=
  bool_decide (c = "+"%char ∨ c = "-"%char).

(** The number that a string of decimal digits writes. *)
Definition decimal (ds : string) : Z :=
  foldl (fun n c => 10 * n + (Z.of_nat (nat_of_ascii c) - 48)) 0
        (list_ascii_of_string ds).

(** A decimal numeral: digits and nothing else. *)
Definition numeral (s : string) : Prop :=
  s ≠ EmptyString ∧ all_chars is_digit s = true.

(** [s] is white space, then [sign], then the digits [ds], at least one,
    then something that does not go on with a digit. *)
Definition reads (s sign ds : string) : Prop :=
  ∃ ws rest : string,
    s = ws +:+ sign +:+ ds +:+ rest ∧
    all_chars is_space ws = true ∧
    (sign = EmptyString ∨ sign = "+" ∨ sign = "-") ∧
    ds ≠ EmptyString ∧ all_chars is_digit ds = true ∧
    starts_with is_digit rest = false.

(** [s] is white space and then, after a sign if there is one, something
    that does not start with a digit. *)
Definition no_number (s : string) : Prop :=
  ∃ ws sign rest : string,
    s = ws +:+ sign +:+ rest ∧
    all_chars is_space ws = true ∧
    (sign = "+" ∨ sign = "-" ∨
     sign = EmptyString ∧ starts_with is_space rest = false ∧
     starts_with is_sign rest = false) ∧
    starts_with is_digit rest = false.

(** What is kept of the number [n] read after [sign]: its low 32 bits,
    those of [- n] after a minus sign, and [2^32 - 1] for a number of
    [2^64] or more. *)
Definition kept (sign : string) (n : Z) : Z :=
  if decide (2 ^ 64 ≤ n) then 2 ^ 32 - 1
  else if decide (sign = "-") then (- n) mod 2 ^ 32
  else n mod 2 ^ 32.

(** ** Sample inputs *)

(** No ratio in the environment, a counter file holding 5, [random()]
    returning 0, 7, 14, ... *)
Definition sample_world : World :=
  {| AFL_INST_RATIO := None; random := fun n => N.of_nat (7 * n);
     cur_id_file := Some [5; 0; 0; 0]; open_ok := true; write_ok := true |}.

Definition world_without_file : World :=
  {| AFL_INST_RATIO := None; random := fun n => N.of_nat (7 * n);
     cur_id_file := None; open_ok := true; write_ok := true |}.

Definition world_bad_ratio : World :=
  {| AFL_INST_RATIO := Some "0"; random := fun n => N.of_nat (7 * n);
     cur_id_file := Some [5; 0; 0; 0]; open_ok := true; write_ok := true |}.

(** The sample world with [AFL_INST_RATIO] set to [s]. *)
Definition world_with_ratio (s : string) : World :=
  {| AFL_INST_RATIO := Some s; random := fun n => N.of_nat (7 * n);
     cur_id_file := Some [5; 0; 0; 0]; open_ok := true; write_ok := true |}.

Definition fresh_state : PassState :=
  {| CurId := 0; inst_blocks := 0; rand_calls := 0 |}.

(** Every value the program defines is 10 at run time. *)
Definition sample_runtime : Runtime :=
  {| globals := fun _ => 0; memory := fun _ => 0; ssa := fun _ => 10;
     reports := [] |}.

(** Value 1 is [2^32], every other value is 0. *)
Definition wide_runtime : Runtime :=
  {| globals := fun _ => 0; memory := fun _ => 0;
     ssa := fun v => match v with Opaque 1 _ => 2 ^ 32 | _ => 0 end;
     reports := [] |}.

(** [switch i32 %0, label %0 [10 -> %1, 20 -> %2, 30 -> %3]] *)
Definition sample_switch : list Value :=
  mkSwitch (Opaque 0 Int32Ty) (BasicBlockRef 0)
    [(ConstantInt 32 10, BasicBlockRef 1); (ConstantInt 32 20, BasicBlockRef 2);
     (ConstantInt 32 30, BasicBlockRef 3)].

Definition sample_branch : Instruction :=
  BranchInst [Opaque 2 (IntegerTy 1); BasicBlockRef 2; BasicBlockRef 1].

Definition sample_icmp : Instruction :=
  Def (ICmpInst ICMP_EQ (Opaque 1 Int32Ty) (ConstantInt 32 4)).

(** [%1 = ...; icmp eq i32 %1, 4; br ...]: three instructions. *)
Definition branch_block : BasicBlock :=
  [Def (Opaque 1 Int32Ty); sample_icmp; sample_branch].

(** [icmp eq i32 %1, 4; br ...]: two instructions. *)
Definition small_block : BasicBlock := [sample_icmp; sample_branch].

Definition switch_block : BasicBlock :=
  [PHINode 3 Int32Ty; Def (Opaque 0 Int32Ty); SwitchInst sample_switch].

Definition sample_module : Module :=
  [[branch_block; small_block]; [switch_block]].

(** ** Notions used by the further properties *)

(** The world as the next compilation unit finds it: the counter file holds
    what the previous run of the pass wrote. *)
Definition with_counter_file (w : World) (file : list Z) : World :=
  {| AFL_INST_RATIO := AFL_INST_RATIO w; random := random w;
     cur_id_file := Some file; open_ok := open_ok w; write_ok := write_ok w |}.

(** One more execution counted in the byte at address [a] of the bitmap. *)
Definition hit (a : Z) (bytes : Z -> Z) : Z -> Z :=
  fun x => if decide (x = a) then (bytes x + 1) mod 2 ^ 8 else bytes x.

(** The destinations of a switch: the default one, then one per case. *)
Definition destinations (d : Value) (cs : list (Value * Value)) : list Value :=
  d :: cs.*2.

(** A call to the collector that fits the prototype the pass declares for
    it: [insert_block(i32)], [insert_distance(i32, i32, i32)]. *)
Definition fits_prototype (i : Instruction) : Prop :=
  match i with
  | CallInst f args =>
      (f = "insert_block" ->
       length args = 1%nat ∧ Forall (fun a => getType a = Int32Ty) args) ∧
      (f = "insert_distance" ->
       length args = 3%nat ∧ Forall (fun a => getType a = Int32Ty) args)
  | _ => True
  end.

(** Ratio 1 and a [random()] that always returns 50: no block is
    sampled. *)
Definition quiet_world : World :=
  {| AFL_INST_RATIO := Some "1"; random := fun _ => 50%N;
     cur_id_file := Some [5; 0; 0; 0]; open_ok := true; write_ok := true |}.

(** * Properties *)

(** ** Case labels *)

Section Labels.
Context {K : Type} `{EqDecision K}.

Lemma index_of_lt (k : K) (l : list K) (p : nat) :
  index_of k l = Some p -> (p < length l)%nat.
Proof.
  revert p; induction l as [|y l IH]; intros p; simpl; [done|].
  destruct (decide (k = y)); [intros [= <-]; lia|].
  destruct (index_of k l) as [q|]; simpl; [|done].
  intros [= <-]. specialize (IH q eq_refl). lia.
Qed.

Lemma index_of_app_l (k : K) (l ext : list K) (p : nat) :
  index_of k l = Some p -> index_of k (l ++ ext) = Some p.
Proof.
  revert p; induction l as [|y l IH]; intros p; simpl; [done|].
  destruct (decide (k = y)); [done|].
  destruct (index_of k l) as [q|]; simpl; [|done].
  intros [= <-]. by rewrite (IH q).
Qed.

Lemma index_of_app_new (k : K) (l : list K) :
  index_of k l = None -> index_of k (l ++ [k]) = Some (length l).
Proof.
  induction l as [|y l IH]; simpl.
  - intros _. by rewrite decide_True.
  - destruct (decide (k = y)); [done|].
    destruct (index_of k l); simpl; [done|]. intros _. by rewrite IH.
Qed.

Lemma index_of_app_other (k k' : K) (l : list K) :
  k ≠ k' -> index_of k (l ++ [k']) = index_of k l.
Proof.
  intros Hne. induction l as [|y l IH]; simpl.
  - by rewrite decide_False.
  - destruct (decide (k = y)); [done|]. by rewrite IH.
Qed.

Lemma see_extends (seen : list K) (k : K) : ∃ ext, see seen k = seen ++ ext.
Proof.
  unfold see. destruct (index_of k seen).
  - exists []. by rewrite app_nil_r.
  - by exists [k].
Qed.

Lemma foldl_see_extends (ks seen : list K) :
  ∃ ext, foldl see seen ks = seen ++ ext.
Proof.
  revert seen; induction ks as [|k ks IH]; intros seen; simpl.
  - exists []. by rewrite app_nil_r.
  - destruct (see_extends seen k) as [e1 ->].
    destruct (IH (seen ++ e1)) as [e2 ->].
    exists (e1 ++ e2). by rewrite app_assoc.
Qed.

Lemma foldl_see_length (ks seen : list K) :
  (length (foldl see seen ks) ≤ length seen + length ks)%nat.
Proof.
  revert seen; induction ks as [|k ks IH]; intros seen; simpl; [lia|].
  etrans; [apply IH|]. unfold see. destruct (index_of k seen); simpl.
  - lia.
  - rewrite length_app. simpl. lia.
Qed.

Lemma lab_see_same (seen : list K) (k : K) :
  lab (see seen k) k = (if decide (lab seen k = 0)
                        then Z.of_nat (S (length seen)) else lab seen k).
Proof.
  unfold lab, see. destruct (index_of k seen) as [p|] eqn:E.
  - rewrite E. rewrite decide_False; [done|lia].
  - rewrite index_of_app_new by done. by rewrite decide_True.
Qed.

Lemma lab_see_other (seen : list K) (k k' : K) :
  k' ≠ k -> lab (see seen k) k' = lab seen k'.
Proof.
  intros Hne. unfold lab, see. destruct (index_of k seen); [done|].
  by rewrite index_of_app_other.
Qed.

Lemma lab_stable (seen ext : list K) (k : K) :
  lab seen k ≠ 0 -> lab (seen ++ ext) k = lab seen k.
Proof.
  unfold lab. destruct (index_of k seen) as [p|] eqn:E; [|done].
  intros _. by rewrite (index_of_app_l _ _ _ _ E).
Qed.

Lemma lab_see_nonzero (seen : list K) (k : K) : lab (see seen k) k ≠ 0.
Proof.
  rewrite lab_see_same. case_decide; [lia|done].
Qed.

Lemma label_pass_lab (ks seen : list K) :
  label_pass seen ks = map (lab (foldl see seen ks)) ks.
Proof.
  revert seen; induction ks as [|k ks IH]; intros seen; [done|].
  cbn [label_pass foldl map].
  destruct (foldl_see_extends ks (see seen k)) as [ext Hext].
  assert (Hk : lab (foldl see (see seen k) ks) k = lab (see seen k) k).
  { rewrite Hext. apply lab_stable, lab_see_nonzero. }
  rewrite Hk, lab_see_same. unfold see at 1 2, lab.
  destruct (index_of k seen) as [p|] eqn:E.
  - rewrite decide_False by lia. by rewrite IH.
  - rewrite decide_True by done. by rewrite IH.
Qed.

Lemma index_of_fmap {L : Type} `{EqDecision L} (f : K -> L) `{!Inj (=) (=) f}
    (k : K) (l : list K) :
  index_of (f k) (f <$> l) = index_of k l.
Proof.
  induction l as [|y l IH]; [done|]. cbn [fmap list_fmap index_of].
  destruct (decide (k = y)) as [->|Hne].
  - by rewrite decide_True.
  - rewrite decide_False; [|by intros ?%(inj f)]. by rewrite IH.
Qed.

Lemma label_pass_fmap {L : Type} `{EqDecision L} (f : K -> L)
    `{!Inj (=) (=) f} (ks seen : list K) :
  label_pass (f <$> seen) (f <$> ks) = label_pass seen ks.
Proof.
  revert seen; induction ks as [|k ks IH]; intros seen; [done|].
  cbn [fmap list_fmap label_pass]. rewrite (index_of_fmap f k seen).
  destruct (index_of k seen).
  - by rewrite IH.
  - rewrite length_fmap, <- (IH (seen ++ [k])), fmap_app. done.
Qed.

End Labels.

Section LabelLoop.
Variable ops : list Value.

Local Abbreviation key := (label_key ops).
Local Abbreviation keys := (loop_keys ops).

Lemma label_step_decide (I : nat) (c : Z) (acc : list Z * bool) (J : nat) :
  label_step ops I c acc J =
  if decide (key I = key J ∧ acc.1 !!! J = 0)
  then (<[J := c]> acc.1, true) else acc.
Proof.
  unfold label_step, label_key.
  destruct (decide (ops !! (1 + 2 * I)%nat = ops !! (1 + 2 * J)%nat ∧
                    acc.1 !!! J = 0)) as [[H1 H2]|Hn].
  - by rewrite !bool_decide_eq_true_2.
  - destruct (decide (ops !! (1 + 2 * I)%nat = ops !! (1 + 2 * J)%nat)).
    + rewrite (bool_decide_eq_false_2 (acc.1 !!! J = 0)); [|naive_solver].
      by rewrite andb_false_r.
    + by rewrite bool_decide_eq_false_2.
Qed.

Lemma label_inner_spec (I : nat) (c : Z) (L : list Z) (u : bool) (m : nat) :
  (m ≤ length L)%nat ->
  let R := foldl (label_step ops I c) (L, u) (seq 0 m) in
  length R.1 = length L ∧
  (∀ j, R.1 !!! j =
        if decide ((j < m)%nat ∧ key I = key j ∧ L !!! j = 0)
        then c else L !!! j) ∧
  (R.2 = true <->
   u = true ∨ ∃ j, (j < m)%nat ∧ key I = key j ∧ L !!! j = 0).
Proof.
  induction m as [|m IH]; intros Hm; cbn zeta.
  - cbn [seq foldl fst snd]. split; [done|]. split.
    + intros j. case_decide as Hc; [destruct Hc; lia|done].
    + split; [by left|]. intros [?|(j & ? & _)]; [done|lia].
  - rewrite seq_S, foldl_app. simpl.
    destruct (IH ltac:(lia)) as (Hlen & Hlk & Hup).
    set (R := foldl (label_step ops I c) (L, u) (seq 0 m)) in *.
    assert (Hm' : R.1 !!! m = L !!! m).
    { rewrite Hlk. rewrite decide_False; [done|lia]. }
    rewrite label_step_decide, Hm'.
    destruct (decide (key I = key m ∧ L !!! m = 0)) as [[Hk Hz]|Hno].
    + cbn [fst snd].
      split; [by rewrite length_insert|]. split.
      * intros j. destruct (decide (j = m)) as [->|Hjm].
        -- rewrite list_lookup_total_insert_eq by lia.
           rewrite decide_True; [done|]. split; [lia|done].
        -- rewrite list_lookup_total_insert_ne by done. rewrite Hlk.
           destruct (decide ((j < m)%nat ∧ key I = key j ∧ L !!! j = 0))
             as [(? & ? & ?)|Hn].
           ++ rewrite decide_True; [done|]. split; [lia|done].
           ++ rewrite decide_False; [done|].
              intros (? & ? & ?). apply Hn. split; [lia|done].
      * split; [|done]. intros _. right. exists m. split; [lia|done].
    + split; [done|]. split.
      * intros j. rewrite Hlk.
        destruct (decide ((j < m)%nat ∧ key I = key j ∧ L !!! j = 0))
          as [(? & ? & ?)|Hn].
        -- rewrite decide_True; [done|]. split; [lia|done].
        -- rewrite decide_False; [done|].
           intros (Hj & ? & ?). destruct (decide (j = m)) as [->|].
           ++ by apply Hno.
           ++ apply Hn. split; [lia|done].
      * rewrite Hup. split.
        -- intros [?|(j & ? & ?)]; [by left|]. right. exists j.
           split; [lia|done].
        -- intros [?|(j & Hj & Hkj & Hz)]; [by left|]. right.
           destruct (decide (j = m)) as [->|].
           ++ exfalso. by apply Hno.
           ++ exists j. split; [lia|done].
Qed.

Lemma keys_lookup (n j : nat) : (j < n)%nat -> keys n !! j = Some (key j).
Proof.
  intros Hj. unfold loop_keys. rewrite list_lookup_fmap.
  by rewrite lookup_seq_lt.
Qed.

Lemma keys_take (n m : nat) : (m ≤ n)%nat -> take m (keys n) = keys m.
Proof.
  intros Hm. unfold loop_keys. rewrite <- fmap_take. f_equal.
  rewrite take_seq. f_equal. lia.
Qed.

Lemma keys_S (m : nat) : keys (S m) = keys m ++ [key m].
Proof. unfold loop_keys. by rewrite seq_S, map_app. Qed.

Lemma label_outer_spec (n m : nat) :
  (m ≤ n)%nat -> Z.of_nat n < 2 ^ 32 - 1 ->
  let R := foldl (label_outer ops n) (replicate n 0, 1) (seq 0 m) in
  let seen := foldl see [] (keys m) in
  length R.1 = n ∧
  R.2 = Z.of_nat (S (length seen)) ∧
  ∀ j, (j < n)%nat -> R.1 !!! j = lab seen (key j).
Proof.
  intros Hm Hn. induction m as [|m IH]; cbn zeta.
  - simpl. split; [by rewrite length_replicate|]. split; [done|].
    intros j Hj. by rewrite lookup_total_replicate_2.
  - rewrite seq_S, foldl_app, keys_S, foldl_app. simpl.
    destruct (IH ltac:(lia)) as (Hlen & Hcur & Hlk). cbn zeta in *.
    set (R := foldl (label_outer ops n) (replicate n 0, 1) (seq 0 m)) in *.
    set (seen := foldl see [] (keys m)) in *.
    pose proof (label_inner_spec m R.2 R.1 false n ltac:(lia)) as HI.
    cbn zeta in HI.
    destruct (foldl (label_step ops m R.2) (R.1, false) (seq 0 n))
      as [L' U'] eqn:EL. simpl in HI. destruct HI as (HL1 & HL2 & HL3).
    assert (Hout : label_outer ops n R m
                   = (L', if U' then wrap32 (R.2 + 1) else R.2)).
    { unfold label_outer, label_inner. by rewrite EL. }
    rewrite Hout. cbn [fst snd].
    assert (Hseen : (length seen ≤ m)%nat).
    { pose proof (foldl_see_length (keys m) []) as Hl. simpl in Hl.
      unfold loop_keys in Hl. rewrite length_map, length_seq in Hl. done. }
    assert (Hlabs : ∀ j, (j < n)%nat ->
              L' !!! j = lab (see seen (key m)) (key j)).
    { intros j Hj. rewrite HL2.
      destruct (decide (key m = key j)) as [Hk|Hk].
      - rewrite <- Hk, lab_see_same. rewrite Hlk by done. rewrite <- Hk.
        destruct (decide (lab seen (key m) = 0)) as [Hz|Hz].
        + rewrite decide_True; [by rewrite Hcur|]. split; [lia|done].
        + rewrite decide_False; [done|]. by intros (_ & _ & ?).
      - rewrite decide_False by (by intros (_ & ? & _)).
        rewrite lab_see_other by done. by apply Hlk. }
    split; [congruence|]. split; [|exact Hlabs].
    destruct U' eqn:EU.
    + assert (Hnew : index_of (key m) seen = None).
      { destruct HL3 as [HL3 _]. destruct (HL3 eq_refl) as [?|(j & Hj & Hk & Hz)];
          [done|].
        rewrite Hlk in Hz by done. rewrite <- Hk in Hz. unfold lab in Hz.
        destruct (index_of (key m) seen); [lia|done]. }
      unfold see. rewrite Hnew, length_app. simpl. rewrite Hcur.
      unfold wrap32, wrap. rewrite Z.mod_small; lia.
    + assert (Hold : index_of (key m) seen ≠ None).
      { intros Hnone. destruct HL3 as [_ HL3].
        assert (false = true); [|done]. apply HL3. right. exists m.
        split; [lia|]. split; [done|]. rewrite Hlk by lia.
        unfold lab. by rewrite Hnone. }
      unfold see. destruct (index_of (key m) seen); [done|congruence].
Qed.

Lemma compute_labels_keys :
  let n := Z.to_nat (wrap32 (getNumCases ops + 1)) in
  Z.of_nat n < 2 ^ 32 - 1 ->
  compute_labels ops = first_occurrence_labels (label_keys ops).
Proof.
  intros n Hn. unfold compute_labels, first_occurrence_labels. fold n.
  change (label_keys ops) with (loop_keys ops n).
  destruct (label_outer_spec n n ltac:(lia) Hn) as (Hlen & _ & Hlk).
  cbn zeta in *. rewrite label_pass_lab.
  apply list_eq. intros j. destruct (decide (j < n)%nat) as [Hj|Hj].
  - rewrite list_lookup_fmap, keys_lookup by done. simpl.
    rewrite <- Hlk by done. apply list_lookup_lookup_total_lt. lia.
  - rewrite !lookup_ge_None_2; [done| |lia].
    unfold loop_keys. rewrite !length_map, length_seq. lia.
Qed.

End LabelLoop.

(** ** Switch operands built by [mkSwitch] *)

Lemma wrap_small (w : N) (z : Z) : 0 ≤ z < 2 ^ Z.of_N w -> wrap w z = z.
Proof. intros Hz. unfold wrap. by apply Z.mod_small. Qed.

Lemma wrap_range (w : N) (z : Z) : 0 ≤ wrap w z < 2 ^ Z.of_N w.
Proof. unfold wrap. apply Z.mod_pos_bound. apply Z.pow_pos_nonneg; lia. Qed.

Lemma wrap32_small (z : Z) : 0 ≤ z < 2 ^ 32 -> wrap32 z = z.
Proof. intros Hz. unfold wrap32. by apply wrap_small. Qed.

Lemma wrap_wrap (w : N) (z : Z) : wrap w (wrap w z) = wrap w z.
Proof. apply wrap_small, wrap_range. Qed.

Lemma mkSwitch_length (c d : Value) (cs : list (Value * Value)) :
  length (mkSwitch c d cs) = (2 + 2 * length cs)%nat.
Proof.
  unfold mkSwitch. simpl. f_equal. f_equal.
  induction cs as [|x cs IH]; simpl; [done|]. rewrite IH. lia.
Qed.

Lemma mkSwitch_getNumCases (c d : Value) (cs : list (Value * Value)) :
  Z.of_nat (length cs) < 2 ^ 32 ->
  getNumCases (mkSwitch c d cs) = Z.of_nat (length cs).
Proof.
  intros Hn. unfold getNumCases. rewrite mkSwitch_length.
  replace (Z.of_nat (2 + 2 * length cs)) with ((1 + Z.of_nat (length cs)) * 2)
    by lia.
  rewrite Z.div_mul by done.
  replace (1 + Z.of_nat (length cs) - 1) with (Z.of_nat (length cs)) by lia.
  apply wrap32_small. lia.
Qed.

Lemma flat_pairs_lookup (cs : list (Value * Value)) (i : nat) :
  flat_map (fun c => [c.1; c.2]) cs !! (2 * i)%nat = fst <$> cs !! i ∧
  flat_map (fun c => [c.1; c.2]) cs !! (1 + 2 * i)%nat = snd <$> cs !! i.
Proof.
  revert i; induction cs as [|x cs IH]; intros i; [done|].
  destruct i as [|i]; [done|].
  replace (2 * S i)%nat with (S (S (2 * i))) by lia.
  replace (1 + S (S (2 * i)))%nat with (S (S (1 + 2 * i))) by lia.
  simpl. apply (IH i).
Qed.

Lemma mkSwitch_key (c d : Value) (cs : list (Value * Value)) (I : nat) :
  label_key (mkSwitch c d cs) I = (d :: cs.*2) !! I.
Proof.
  unfold label_key, mkSwitch. destruct I as [|i]; [done|].
  replace (1 + 2 * S i)%nat with (S (S (1 + 2 * i))) by lia. simpl.
  rewrite list_lookup_fmap. apply flat_pairs_lookup.
Qed.

Lemma mkSwitch_label_keys (c d : Value) (cs : list (Value * Value)) :
  Z.of_nat (length cs) < 2 ^ 32 - 1 ->
  label_keys (mkSwitch c d cs) = Some <$> (d :: cs.*2).
Proof.
  intros Hn. unfold label_keys.
  rewrite mkSwitch_getNumCases, wrap32_small by lia.
  apply list_eq. intros j. rewrite !list_lookup_fmap.
  destruct (decide (j < S (length cs))%nat) as [Hj|Hj].
  - replace (Z.to_nat (Z.of_nat (length cs) + 1)) with (S (length cs)) by lia.
    rewrite lookup_seq_lt by done. cbn [fmap option_fmap option_map].
    change (mkSwitch c d cs !! (1 + 2 * (0 + j))%nat)
      with (label_key (mkSwitch c d cs) j).
    rewrite mkSwitch_key.
    destruct ((d :: cs.*2) !! j) eqn:E; [done|].
    apply lookup_ge_None in E. simpl in E. rewrite length_fmap in E. lia.
  - rewrite lookup_seq_ge by lia. simpl. symmetry.
    rewrite lookup_ge_None_2; [done|]. simpl. rewrite length_fmap. lia.
Qed.

Lemma mkSwitch_cases (c d : Value) (cs : list (Value * Value)) :
  Z.of_nat (length cs) < 2 ^ 32 ->
  cases (mkSwitch c d cs) = cs.*1.
Proof.
  intros Hn. unfold cases. rewrite mkSwitch_getNumCases by done.
  rewrite Nat2Z.id. apply list_eq. intros j.
  rewrite !list_lookup_fmap.
  destruct (decide (j < length cs)%nat) as [Hj|Hj].
  - rewrite lookup_seq_lt by done. simpl.
    destruct (cs !! j) as [x|] eqn:E.
    + cbn [fmap option_fmap option_map]. f_equal.
      apply list_lookup_total_correct.
      unfold mkSwitch. replace (2 + 2 * (0 + j))%nat with (S (S (2 * j))) by lia.
      change ((c :: d :: flat_map (fun c => [c.1; c.2]) cs) !! S (S (2 * j)))
        with (flat_map (fun c => [c.1; c.2]) cs !! (2 * j)%nat).
      destruct (flat_pairs_lookup cs j) as [Hf _].
      etrans; [exact Hf|]. by rewrite E.
    + apply lookup_ge_None in E. lia.
  - rewrite lookup_seq_ge by lia. simpl.
    by rewrite lookup_ge_None_2 by lia.
Qed.

Lemma label_pass_range {K} `{EqDecision K} (ks seen : list K) :
  Forall (fun l => 1 ≤ l ≤ Z.of_nat (length seen + length ks))
         (label_pass seen ks).
Proof.
  revert seen; induction ks as [|k ks IH]; intros seen; [constructor|].
  cbn [label_pass]. destruct (index_of k seen) as [p|] eqn:E.
  - constructor.
    + apply index_of_lt in E. simpl. lia.
    + eapply Forall_impl; [apply IH|]. simpl. intros; lia.
  - constructor.
    + simpl. lia.
    + eapply Forall_impl; [apply (IH (seen ++ [k]))|].
      simpl. intros l. rewrite length_app. simpl. lia.
Qed.

Lemma label_pass_length {K} `{EqDecision K} (ks seen : list K) :
  length (label_pass seen ks) = length ks.
Proof.
  revert seen; induction ks as [|k ks IH]; intros seen; [done|].
  cbn [label_pass]. destruct (index_of k seen); simpl; by rewrite IH.
Qed.

Lemma compute_labels_mkSwitch (c d : Value) (cs : list (Value * Value)) :
  Z.of_nat (length cs) < 2 ^ 32 - 2 ->
  compute_labels (mkSwitch c d cs) = first_occurrence_labels (d :: cs.*2).
Proof.
  intros Hn. rewrite compute_labels_keys.
  - rewrite mkSwitch_label_keys by lia. unfold first_occurrence_labels.
    change (@nil (option Value)) with (Some <$> (@nil Value)).
    apply (label_pass_fmap Some).
  - rewrite mkSwitch_getNumCases, wrap32_small by lia. lia.
Qed.

(** ** Values of the emitted operands *)

Lemma eval_range (env : Value -> Z) (v : Value) (w : N) :
  getType v = IntegerTy w -> 0 ≤ eval env v < 2 ^ Z.of_N w.
Proof.
  destruct v as [b z|g|l|id t|opc a b|opc a t|p a b|t q|q i]; simpl;
    intros Ht; try discriminate.
  - injection Ht as ->. apply wrap_range.
  - subst t. apply wrap_range.
  - unfold widthOf. rewrite Ht. case_decide; apply wrap_range.
  - subst t. destruct opc; apply wrap_range.
  - injection Ht as <-. destruct p; [case_decide; simpl; lia..|].
    apply (wrap_range 1).
  - subst t. apply wrap_range.
Qed.

Lemma eval_xor (env : Value -> Z) (A B : Value) (w : N) :
  getType A = IntegerTy w -> getType B = IntegerTy w ->
  eval env (BinaryOperator Xor A B)
  = wrap w (Z.lxor (eval env A) (eval env B)).
Proof.
  intros HA HB. cbn [eval binop]. unfold widthOf.
  rewrite decide_True by congruence. by rewrite HA.
Qed.

Lemma distance_uintcast32 (env : Value -> Z) (A B : Value) (w : N) :
  getType A = IntegerTy w -> getType B = IntegerTy w ->
  distance env A B = uintcast32 w (Z.lxor (eval env A) (eval env B)).
Proof.
  intros Ht HB. pose proof (eval_xor env A B w Ht HB) as Hx.
  unfold distance, CreateIntCast, uintcast32.
  cbn [getType]. rewrite Ht. unfold Int32Ty.
  destruct (decide (IntegerTy w = IntegerTy 32)) as [[= ->]|Hne].
  - cbn [fst]. rewrite Hx. by rewrite wrap_wrap.
  - cbn [getScalarSizeInBits].
    destruct (decide (32 < w)%N) as [Hw|Hw].
    + cbn [fst]. cbn [eval] in *. by rewrite Hx.
    + cbn [fst]. cbn [eval] in *. by rewrite Hx.
Qed.

Lemma Z_lxor_range (w : N) (a b : Z) :
  0 ≤ a < 2 ^ Z.of_N w -> 0 ≤ b < 2 ^ Z.of_N w ->
  0 ≤ Z.lxor a b < 2 ^ Z.of_N w.
Proof.
  intros Ha Hb. assert (0 ≤ Z.lxor a b) by (apply Z.lxor_nonneg; lia).
  split; [done|].
  destruct (decide (Z.lxor a b = 0)) as [->|Hnz].
  { apply Z.pow_pos_nonneg; lia. }
  assert (0 < Z.of_N w).
  { destruct (decide (w = 0%N)) as [->|]; [|lia].
    simpl in Ha, Hb. assert (a = 0) as -> by lia. assert (b = 0) as -> by lia.
    done. }
  apply Z.log2_lt_pow2; [lia|].
  eapply Z.le_lt_trans; [apply Z.log2_lxor; lia|].
  apply Z.max_lub_lt.
  - destruct (decide (a = 0)) as [->|]; [simpl|apply Z.log2_lt_pow2]; lia.
  - destruct (decide (b = 0)) as [->|]; [simpl|apply Z.log2_lt_pow2]; lia.
Qed.

(** ** Running the distance code *)

Lemma log_nil (rt : Runtime) : log rt [] = rt.
Proof. destruct rt. unfold log. simpl. by rewrite app_nil_r. Qed.

Lemma log_log (rt : Runtime) (a b : list Report) :
  log (log rt a) b = log rt (a ++ b).
Proof. unfold log. simpl. by rewrite app_assoc. Qed.

Lemma run_app (rt : Runtime) (c1 c2 : list Instruction) :
  run rt (c1 ++ c2) = run (run rt c1) c2.
Proof. apply foldl_app. Qed.

Lemma run_CreateIntCast (rt : Runtime) (V : Value) (T : Ty) (s : bool) :
  run rt (CreateIntCast V T s).2 = rt.
Proof. unfold CreateIntCast. by case_decide. Qed.

Lemma exec_insert_distance (rt : Runtime) (id : Z) (Case D : Value) :
  exec rt (insert_distance id Case D) =
  log rt [DistanceReport (wrap32 id) (eval (ssa rt) Case) (eval (ssa rt) D)].
Proof. done. Qed.

Lemma switch_cases_run (id : Z) (Cond : Value) (Labels : list Z)
    (cs : list Value) :
  ∀ (Inc : nat) (D : Value) (rt : Runtime),
    run rt (switch_cases id Cond Labels cs Inc D).1 =
      log rt (imap (fun i v =>
                DistanceReport (wrap32 id)
                  (wrap32 (Labels !!! (Inc + i + 1)%nat))
                  (distance (ssa rt) Cond v)) cs).
Proof.
  induction cs as [|v cs IH]; intros Inc D rt.
  - cbn [switch_cases fst snd imap]. by rewrite log_nil.
  - cbn [switch_cases]. fold (distance (ssa rt) Cond v).
    pose proof (run_CreateIntCast rt (BinaryOperator Xor Cond v) Int32Ty false)
      as Hcast.
    unfold distance at 1.
    destruct (CreateIntCast (BinaryOperator Xor Cond v) Int32Ty false)
      as [Dist cast] eqn:EC. cbn [fst snd] in *.
    set (NC := ICmpInst ICMP_NE Dist (ConstantInt 32 0)).
    set (D' := BinaryOperator Add D NC).
    set (rt1 := log rt [DistanceReport (wrap32 id)
                          (eval (ssa rt) (ConstantInt 32 (Labels !!! (Inc + 1)%nat)))
                          (eval (ssa rt) Dist)]).
    specialize (IH (S Inc) D' rt1).
    change (ssa rt1) with (ssa rt) in IH.
    destruct (switch_cases id Cond Labels cs (S Inc) D') as [code D2] eqn:ES.
    cbn [fst snd] in *.
    rewrite !run_app.
    change (run rt [Def (BinaryOperator Xor Cond v)]) with rt.
    rewrite Hcast.
    change (run rt [insert_distance id
                      (ConstantInt 32 (Labels !!! (Inc + 1)%nat)) Dist;
                    Def NC; Def D'])
      with rt1.
    rewrite IH. unfold rt1. rewrite log_log. f_equal.
    cbn [imap app]. f_equal.
    + by rewrite EC, Nat.add_0_r.
    + apply imap_ext. intros i x _. simpl. do 2 f_equal. f_equal. lia.
Qed.

(** ** The builder *)

Lemma getFirstNonPHI_le (bb : BasicBlock) :
  (getFirstNonPHI bb ≤ length bb)%nat.
Proof.
  induction bb as [|i bb IH]; simpl; [done|]. destruct i; simpl; lia.
Qed.

Lemma getFirstInsertionPt_le (bb : BasicBlock) :
  (getFirstInsertionPt bb ≤ length bb)%nat.
Proof.
  unfold getFirstInsertionPt. pose proof (getFirstNonPHI_le bb).
  destruct (bb !! getFirstNonPHI bb) as [i|] eqn:E; [|done].
  apply lookup_lt_Some in E. destruct i; lia.
Qed.

Lemma InsertAll_spec (code : list Instruction) :
  ∀ (blk : BasicBlock) (pt : nat),
    (pt ≤ length blk)%nat ->
    InsertAll (mkIRB blk pt) code =
    mkIRB (take pt blk ++ code ++ drop pt blk) (pt + length code).
Proof.
  induction code as [|i code IH]; intros blk pt Hpt.
  - simpl. by rewrite take_drop, Nat.add_0_r.
  - cbn [InsertAll foldl]. unfold Insert at 2. cbn [BB InsertPt].
    fold (InsertAll (mkIRB (take pt blk ++ i :: drop pt blk) (S pt)) code).
    assert (Hlen : length (take pt blk ++ [i]) = S pt).
    { rewrite length_app, length_take. simpl. lia. }
    rewrite IH.
    + f_equal; [|simpl; lia].
      replace (take pt blk ++ i :: drop pt blk)
        with ((take pt blk ++ [i]) ++ drop pt blk) by (by rewrite <- app_assoc).
      rewrite <- Hlen, take_app_length, drop_app_length.
      by rewrite <- app_assoc.
    + rewrite length_app, length_take. simpl. rewrite length_drop. lia.
Qed.

Lemma InsertBefore_spec (pos : nat) (code : list Instruction)
    (blk : BasicBlock) (pt : nat) :
  (pos ≤ length blk)%nat ->
  InsertBefore pos code (mkIRB blk pt) =
  mkIRB (take pos blk ++ code ++ drop pos blk)
        (if decide (pos ≤ pt)%nat then (pt + length code)%nat else pt).
Proof.
  intros Hpos. unfold InsertBefore. cbn [BB InsertPt].
  by rewrite InsertAll_spec.
Qed.

Lemma InsertBefore_nil (pos : nat) (irb : IRBuilder) :
  InsertBefore pos [] irb = irb.
Proof.
  destruct irb as [blk pt]. unfold InsertBefore. simpl.
  case_decide; by rewrite ?Nat.add_0_r.
Qed.

(** What the distance analyzer does to a block: nothing, or the switch code
    before a final switch, or the comparison code before a comparison that
    is followed by a final conditional branch. *)
Lemma distance_analyzer_shape (id : Z) (blk : BasicBlock) (pt : nat) :
  ∃ pos code,
    (pos ≤ length blk)%nat ∧
    distance_analyzer id (mkIRB blk pt) = InsertBefore pos code (mkIRB blk pt) ∧
    (code = [] ∨
     (∃ ops, blk !! pos = Some (SwitchInst ops) ∧ S pos = length blk ∧
             code = switch_code id ops) ∨
     (∃ p A0 A1 ops,
         blk !! pos = Some (Def (ICmpInst p A0 A1)) ∧
         blk !! S pos = Some (BranchInst ops) ∧ isConditional ops = true ∧
         S (S pos) = length blk ∧ code = icmp_code id A0 A1)).
Proof.
  assert (Hnone : ∃ pos code,
    (pos ≤ length blk)%nat ∧
    mkIRB blk pt = InsertBefore pos code (mkIRB blk pt) ∧
    (code = [] ∨
     (∃ ops, blk !! pos = Some (SwitchInst ops) ∧ S pos = length blk ∧
             code = switch_code id ops) ∨
     (∃ p A0 A1 ops,
         blk !! pos = Some (Def (ICmpInst p A0 A1)) ∧
         blk !! S pos = Some (BranchInst ops) ∧ isConditional ops = true ∧
         S (S pos) = length blk ∧ code = icmp_code id A0 A1))).
  { exists 0%nat, []. split; [lia|]. split; [by rewrite InsertBefore_nil|].
    by left. }
  unfold distance_analyzer. cbn [BB].
  destruct (decide (2 < length blk)%nat) as [Hlen|]; [|done].
  destruct (blk !! (length blk - 1)%nat) as [last|] eqn:Elast; cycle 1.
  { apply lookup_ge_None in Elast. lia. }
  destruct last as [v|v q|f args|ops|ops|i t|i|i].
  4: { (* a branch *)
    cbn [BB].
    destruct (blk !! (length blk - 1 - 1)%nat) as [prev|] eqn:Eprev; [|done].
    destruct prev as [v| | | | | | |]; try done.
    destruct v as [| | | | | |p A0 A1| |]; try done.
    destruct (isConditional ops) eqn:Ec; [|done].
    exists (length blk - 1 - 1)%nat, (icmp_code id A0 A1).
    split; [lia|]. split; [done|]. right. right.
    exists p, A0, A1, ops. split; [done|].
    replace (S (length blk - 1 - 1)) with (length blk - 1)%nat by lia.
    split; [done|]. split; [done|]. split; [lia|done]. }
  4: { (* a switch *)
    exists (length blk - 1)%nat, (switch_code id ops).
    split; [lia|]. split.
    - repeat case_match; done.
    - right. left. exists ops. split; [done|]. split; [lia|done]. }
  all: cbn [BB]; repeat case_match; done.
Qed.

Lemma first_occurrence_labels_range {K} `{EqDecision K} (ks : list K) (j : nat) :
  (j < length ks)%nat ->
  1 ≤ first_occurrence_labels ks !!! j ≤ Z.of_nat (length ks).
Proof.
  intros Hj. unfold first_occurrence_labels.
  pose proof (label_pass_range ks []) as Hr.
  rewrite Forall_lookup in Hr.
  apply (Hr j). apply list_lookup_lookup_total_lt.
  by rewrite label_pass_length.
Qed.

Lemma first_occurrence_labels_head {K} `{EqDecision K} (k : K) (ks : list K) :
  first_occurrence_labels (k :: ks) !!! 0%nat = 1.
Proof. done. Qed.

(** The operand that the default record passes as its distance (lines
    206-218). *)
Lemma switch_code_run (id : Z) (Cond d : Value) (cs : list (Value * Value))
    (rt : Runtime) (w : N) :
  getType Cond = IntegerTy w -> (w ≤ 64)%N ->
  Z.of_nat (length cs) < 2 ^ 32 - 2 ->
  let Labels := compute_labels (mkSwitch Cond d cs) in
  ∃ DefaultDis : Value,
  run rt (switch_code id (mkSwitch Cond d cs)) =
  log rt (imap (fun i v => DistanceReport (wrap32 id) (Labels !!! S i)
                             (distance (ssa rt) Cond v))
               cs.*1 ++
          [DistanceReport (wrap32 id) (Labels !!! 0%nat)
             (eval (ssa rt) DefaultDis)]).
Proof.
  intros Ht Hw Hn Labels. unfold switch_code.
  change (getCondition (mkSwitch Cond d cs)) with Cond. rewrite Ht.
  cbn [getScalarSizeInBits Int64Ty]. rewrite decide_True by done.
  fold Labels. rewrite mkSwitch_cases by lia.
  pose proof (switch_cases_run id Cond Labels cs.*1 0 (ConstantInt 32 0) rt)
    as Hrun.
  destruct (switch_cases id Cond Labels cs.*1 0 (ConstantInt 32 0))
    as [code D] eqn:ES. cbn [fst snd] in *.
  set (D' := BinaryOperator Sub _ D). exists D'.
  rewrite run_app, Hrun.
  set (rt1 := log rt _).
  change (run rt1 [Def D'; insert_distance id (ConstantInt 32 (Labels !!! 0%nat)) D'])
    with (log rt1 [DistanceReport (wrap32 id)
                     (eval (ssa rt) (ConstantInt 32 (Labels !!! 0%nat)))
                     (eval (ssa rt) D')]).
  unfold rt1. rewrite log_log.
  assert (Hlab : ∀ j, (j < S (length cs))%nat -> wrap32 (Labels !!! j) = Labels !!! j).
  { intros j Hj. apply wrap32_small. unfold Labels.
    rewrite compute_labels_mkSwitch by done.
    pose proof (first_occurrence_labels_range (d :: cs.*2) j) as Hr.
    simpl in Hr. rewrite length_fmap in Hr. specialize (Hr ltac:(lia)). lia. }
  f_equal. f_equal.
  - apply imap_ext. intros i x Hx. apply lookup_lt_Some in Hx.
    rewrite length_fmap in Hx. simpl. f_equal.
    replace (i + 1)%nat with (S i) by lia. apply Hlab. lia.
  - f_equal. f_equal. apply (Hlab 0%nat). lia.
Qed.

Lemma switch_code_wide (id : Z) (ops : list Value) :
  (64 < getScalarSizeInBits (getType (getCondition ops)))%N ->
  switch_code id ops = [].
Proof.
  intros Hw. unfold switch_code. cbn [getScalarSizeInBits Int64Ty].
  rewrite decide_False; [done|lia].
Qed.

(** The record the comparison code reports when it runs. *)
Lemma icmp_code_run (id : Z) (A0 A1 : Value) (rt : Runtime) (w : N) :
  getType A0 = IntegerTy w -> getType A1 = IntegerTy w -> (w ≤ 64)%N ->
  run rt (icmp_code id A0 A1) =
  log rt [DistanceReport (wrap32 id) 0
            (uintcast32 w (Z.lxor (eval (ssa rt) A0) (eval (ssa rt) A1)))].
Proof.
  intros Ht Ht1 Hw. unfold icmp_code. rewrite Ht.
  cbn [isIntegerTy getScalarSizeInBits Int64Ty]. rewrite decide_True by done.
  pose proof (distance_uintcast32 (ssa rt) A0 A1 w Ht Ht1) as Hd.
  pose proof (run_CreateIntCast rt (BinaryOperator Xor A0 A1) Int32Ty false)
    as Hcast.
  unfold distance in Hd.
  destruct (CreateIntCast (BinaryOperator Xor A0 A1) Int32Ty false)
    as [Dist cast]. cbn [fst snd] in *.
  rewrite !run_app. change (run rt [Def (BinaryOperator Xor A0 A1)]) with rt.
  rewrite Hcast. rewrite <- Hd. done.
Qed.

(** ** Running the edge coverage code *)

Lemma edge_code_eq (cur_loc : Z) :
  edge_code cur_loc =
  let PrevLoc := LoadInst Int32Ty AFLPrevLoc in
  let MapPtr := LoadInst PointerTy AFLMapPtr in
  let Idx := BinaryOperator Xor PrevLoc (ConstantInt 32 cur_loc) in
  let MapPtrIdx := GetElementPtrInst MapPtr Idx in
  let Counter := LoadInst Int8Ty MapPtrIdx in
  let Incr := BinaryOperator Add Counter (ConstantInt 8 1) in
  [Def PrevLoc; Def MapPtr; Def Idx; Def MapPtrIdx; Def Counter; Def Incr;
   StoreInst Incr MapPtrIdx;
   StoreInst (ConstantInt 32 (Z.shiftr cur_loc 1)) AFLPrevLoc].
Proof. reflexivity. Qed.

Lemma edge_code_length (cur_loc : Z) : length (edge_code cur_loc) = 8%nat.
Proof. by rewrite edge_code_eq. Qed.

Lemma MAP_SIZE_pow2 (k : Z) : 0 ≤ k -> MAP_SIZE k = 2 ^ k.
Proof. intros Hk. unfold MAP_SIZE. by rewrite Z.shiftl_1_l. Qed.

Lemma signed_small (w : N) (z : Z) :
  0 ≤ z < 2 ^ (Z.of_N w - 1) -> signed w z = z.
Proof.
  intros Hz. unfold signed.
  assert (Hw : 0 < Z.of_N w).
  { destruct (decide (0 < Z.of_N w)); [done|].
    rewrite Z.pow_neg_r in Hz; lia. }
  assert (2 ^ (Z.of_N w - 1) < 2 ^ Z.of_N w).
  { apply Z.pow_lt_mono_r; lia. }
  rewrite wrap_small by lia. by rewrite decide_True by lia.
Qed.

Lemma edge_code_run (cur_loc : Z) (rt : Runtime) :
  let prev := globals rt "__afl_prev_loc" in
  let base := globals rt "__afl_area_ptr" in
  let idx := Z.lxor prev cur_loc in
  0 ≤ prev < 2 ^ 31 -> 0 ≤ cur_loc < 2 ^ 31 ->
  let rt' := run rt (edge_code cur_loc) in
  (∀ a, memory rt' a =
        if decide (a = base + idx)
        then wrap 8 (memory rt (base + idx) + 1) else memory rt a) ∧
  (∀ g, globals rt' g =
        if decide (g = "__afl_prev_loc") then Z.shiftr cur_loc 1
        else globals rt g) ∧
  reports rt' = reports rt.
Proof.
  intros prev base idx Hp Hc rt'.
  assert (Hidx : 0 ≤ idx < 2 ^ 31) by (by apply (Z_lxor_range 31)).
  unfold rt'. rewrite edge_code_eq. cbn zeta.
  set (PrevLoc := LoadInst Int32Ty AFLPrevLoc).
  set (MapPtr := LoadInst PointerTy AFLMapPtr).
  set (Idx := BinaryOperator Xor PrevLoc (ConstantInt 32 cur_loc)).
  set (MapPtrIdx := GetElementPtrInst MapPtr Idx).
  set (Counter := LoadInst Int8Ty MapPtrIdx).
  set (Incr := BinaryOperator Add Counter (ConstantInt 8 1)).
  set (env2 := upd (upd (ssa rt) PrevLoc prev) MapPtr base).
  assert (Haddr : ∀ env, env PrevLoc = prev -> env MapPtr = base ->
                    eval env MapPtrIdx = base + idx).
  { intros env H1 H2.
    change (eval env MapPtrIdx)
      with (env MapPtr +
            signed 32 (wrap 32 (Z.lxor (wrap 32 (env PrevLoc))
                                       (wrap 32 cur_loc)))).
    rewrite H1, H2.
    rewrite (wrap_small 32 prev), (wrap_small 32 cur_loc) by (simpl; lia).
    fold idx. rewrite (wrap_small 32 idx) by (simpl; lia).
    rewrite signed_small; [done|simpl; lia]. }
  assert (H2a : env2 PrevLoc = prev).
  { unfold env2, upd. rewrite decide_False by done. by rewrite decide_True. }
  assert (H2b : env2 MapPtr = base).
  { unfold env2, upd. by rewrite decide_True. }
  set (count := memory rt (base + idx)).
  set (env3 := upd env2 Counter count).
  assert (H3a : env3 PrevLoc = prev).
  { unfold env3, upd. by rewrite decide_False. }
  assert (H3b : env3 MapPtr = base).
  { unfold env3, upd. by rewrite decide_False. }
  assert (H3c : env3 Counter = count).
  { unfold env3, upd. by rewrite decide_True. }
  assert (Hrun : run rt
      [Def PrevLoc; Def MapPtr; Def Idx; Def MapPtrIdx; Def Counter; Def Incr;
       StoreInst Incr MapPtrIdx;
       StoreInst (ConstantInt 32 (Z.shiftr cur_loc 1)) AFLPrevLoc] =
    {| globals := upd (globals rt) "__afl_prev_loc"
                      (wrap 32 (Z.shiftr cur_loc 1));
       memory := upd (memory rt) (base + idx) (eval env3 Incr);
       ssa := env3; reports := reports rt |}).
  { unfold run. cbn [foldl]. unfold exec at 8. cbn [PrevLoc AFLPrevLoc ssa
      globals memory reports]. fold prev. fold PrevLoc.
    unfold exec at 7. cbn [MapPtr AFLMapPtr ssa globals memory reports].
    fold base. fold MapPtr. fold env2.
    unfold exec at 6. cbn [Idx]. unfold exec at 5. cbn [MapPtrIdx].
    unfold exec at 4. cbn [Counter MapPtrIdx ssa globals memory reports].
    fold MapPtrIdx. rewrite (Haddr env2 H2a H2b). fold count. fold Counter.
    fold env3. unfold exec at 3. cbn [Incr].
    unfold exec at 2. cbn [MapPtrIdx ssa globals memory reports].
    fold MapPtrIdx. rewrite (Haddr env3 H3a H3b). fold Incr.
    unfold exec. cbn [AFLPrevLoc ssa globals memory reports eval]. done. }
  rewrite Hrun. cbn [memory globals reports]. split; [|split; [|done]].
  - intros a. unfold upd. case_decide; [|done].
    change (eval env3 Incr) with (wrap 8 (wrap 8 (env3 Counter) + wrap 8 1)).
    rewrite H3c. unfold wrap. rewrite <- Zplus_mod. done.
  - intros g. unfold upd. case_decide; [|done].
    apply wrap_small. split.
    + apply Z.shiftr_nonneg. lia.
    + rewrite Z.shiftr_div_pow2 by lia.
      assert (cur_loc / 2 ^ 1 ≤ cur_loc); [|simpl; lia].
      apply Z.div_le_upper_bound; lia.
Qed.

(** ** The distance analyzer on the two shapes of block it acts on *)

Lemma distance_analyzer_switch (id : Z) (body : BasicBlock) (ops : list Value)
    (pt : nat) :
  (2 ≤ length body)%nat ->
  distance_analyzer id (mkIRB (body ++ [SwitchInst ops]) pt) =
  mkIRB (body ++ switch_code id ops ++ [SwitchInst ops])
        (if decide (length body ≤ pt)%nat
         then (pt + length (switch_code id ops))%nat else pt).
Proof.
  intros Hlen. unfold distance_analyzer. cbn [BB].
  rewrite length_app. cbn [length].
  rewrite decide_True by lia.
  replace (length body + 1 - 1)%nat with (length body) by lia.
  rewrite list_lookup_middle by done.
  rewrite InsertBefore_spec by (rewrite length_app; simpl; lia).
  rewrite take_app_length, drop_app_length.
  repeat case_match; done.
Qed.

Lemma distance_analyzer_icmp (id : Z) (body : BasicBlock) (p : Predicate)
    (A0 A1 : Value) (ops : list Value) (pt : nat) :
  (1 ≤ length body)%nat -> isConditional ops = true ->
  distance_analyzer id
    (mkIRB (body ++ [Def (ICmpInst p A0 A1); BranchInst ops]) pt) =
  mkIRB (body ++ icmp_code id A0 A1 ++ [Def (ICmpInst p A0 A1); BranchInst ops])
        (if decide (length body ≤ pt)%nat
         then (pt + length (icmp_code id A0 A1))%nat else pt).
Proof.
  intros Hlen Hc. unfold distance_analyzer. cbn [BB].
  rewrite length_app. cbn [length].
  rewrite decide_True by lia.
  replace (length body + 2 - 1)%nat with (S (length body)) by lia.
  assert (Hlast : (body ++ [Def (ICmpInst p A0 A1); BranchInst ops])
                    !! S (length body) = Some (BranchInst ops)).
  { rewrite (cons_middle (Def _)), app_assoc.
    apply list_lookup_middle. rewrite length_app. simpl. lia. }
  rewrite Hlast, Hc. cbn [BB].
  replace (S (length body) - 1)%nat with (length body) by lia.
  rewrite list_lookup_middle by done.
  rewrite InsertBefore_spec by (rewrite length_app; simpl; lia).
  by rewrite take_app_length, drop_app_length.
Qed.

(** ** One block *)

Section Block.
Variable MAP_SIZE_POW2 : Z.
Variable w : World.
Variable inst_ratio : Z.

Local Abbreviation draw st := (AFL_R 100 (random w (rand_calls st))).
Local Abbreviation location st :=
  (AFL_R (MAP_SIZE MAP_SIZE_POW2) (random w (S (rand_calls st)))).
Local Abbreviation next_id st := (wrap32 (CurId st + 1)).

Lemma AFL_R_range (x : Z) (r : N) : 0 < x -> 0 ≤ AFL_R x r < x.
Proof. intros Hx. unfold AFL_R. by apply Z.mod_pos_bound. Qed.

Lemma instrument_block_skipped (st : PassState) (bb : BasicBlock) :
  inst_ratio ≤ draw st ->
  instrument_block MAP_SIZE_POW2 w inst_ratio st bb =
  ({| CurId := CurId st; inst_blocks := inst_blocks st;
      rand_calls := S (rand_calls st) |}, bb).
Proof. intros Hd. unfold instrument_block. by rewrite decide_True. Qed.

Lemma instrument_block_sampled (st : PassState) (bb : BasicBlock) :
  draw st < inst_ratio ->
  let p0 := getFirstInsertionPt bb in
  instrument_block MAP_SIZE_POW2 w inst_ratio st bb =
  ({| CurId := next_id st; inst_blocks := inst_blocks st + 1;
      rand_calls := S (S (rand_calls st)) |},
   BB (Insert (distance_analyzer (next_id st)
                 (mkIRB (take p0 bb ++ edge_code (location st) ++ drop p0 bb)
                        (p0 + 8)))
              (insert_block (next_id st)))).
Proof.
  intros Hd p0. unfold instrument_block. rewrite decide_False by lia.
  rewrite InsertAll_spec by apply getFirstInsertionPt_le.
  by rewrite edge_code_length.
Qed.

(** The instrumented block, up to the order of its instructions. *)
Lemma instrument_block_perm (st : PassState) (bb : BasicBlock) :
  draw st < inst_ratio ->
  ∃ code,
    (instrument_block MAP_SIZE_POW2 w inst_ratio st bb).2 ≡ₚ
      insert_block (next_id st) :: code ++ edge_code (location st) ++ bb ∧
    (code = [] ∨ (∃ ops, code = switch_code (next_id st) ops) ∨
     (∃ A0 A1, code = icmp_code (next_id st) A0 A1)).
Proof.
  intros Hd. rewrite instrument_block_sampled by done. cbn [snd].
  set (p0 := getFirstInsertionPt bb).
  set (blk := take p0 bb ++ edge_code (location st) ++ drop p0 bb).
  destruct (distance_analyzer_shape (next_id st) blk (p0 + 8))
    as (pos & code & Hpos & -> & Hcode).
  exists code. split.
  - rewrite InsertBefore_spec by done. unfold Insert. cbn [BB InsertPt].
    rewrite <- Permutation_middle, take_drop.
    apply Permutation_skip.
    rewrite (Permutation_app_comm code), app_assoc, take_drop.
    rewrite (Permutation_app_comm blk). apply Permutation_app_head.
    unfold blk. rewrite (Permutation_app_comm (edge_code _)), app_assoc.
    rewrite take_drop. apply Permutation_app_comm.
  - destruct Hcode as [?|[(ops & _ & _ & ?)|(p & A0 & A1 & ops & _ & _ & _ & _ & ?)]];
      eauto.
Qed.

End Block.

(** ** The calls to the collector in the emitted code *)

Lemma reporter_id_collector (i : Instruction) (id : Z) :
  reporter_id i = Some id -> is_collector_call i = true.
Proof.
  destruct i; try done. simpl. case_decide; [|done].
  intros _. apply bool_decide_eq_true_2. by left.
Qed.

Lemma uninstrumented_reporter_ids (bb : BasicBlock) :
  uninstrumented bb -> reporter_ids bb = [].
Proof.
  unfold reporter_ids. induction 1 as [|i bb Hi _ IH]; [done|].
  cbn [omap list_omap]. destruct (reporter_id i) eqn:E; [|exact IH].
  apply reporter_id_collector in E. congruence.
Qed.

Lemma tagged_not_call (id : Z) (i : Instruction) :
  is_collector_call i = false -> tagged id i.
Proof. unfold tagged. congruence. Qed.

Lemma tagged_insert_distance (id : Z) (Case D : Value) :
  tagged id (insert_distance id Case D) ∧
  reporter_id (insert_distance id Case D) = None.
Proof. done. Qed.

Lemma CreateIntCast_calls (V : Value) (T : Ty) (s : bool) :
  Forall (fun i => is_collector_call i = false) (CreateIntCast V T s).2.
Proof.
  unfold CreateIntCast. case_decide; simpl; [constructor|].
  by repeat constructor.
Qed.

Lemma switch_cases_calls (id : Z) (Cond : Value) (Labels : list Z)
    (cs : list Value) :
  ∀ (Inc : nat) (D : Value),
    Forall (fun i => tagged id i ∧ reporter_id i = None)
           (switch_cases id Cond Labels cs Inc D).1.
Proof.
  induction cs as [|v cs IH]; intros Inc D; [constructor|].
  cbn [switch_cases].
  pose proof (CreateIntCast_calls (BinaryOperator Xor Cond v) Int32Ty false)
    as Hc.
  destruct (CreateIntCast (BinaryOperator Xor Cond v) Int32Ty false)
    as [Dist cast]. cbn [snd] in Hc.
  specialize (IH (S Inc)
    (BinaryOperator Add D (ICmpInst ICMP_NE Dist (ConstantInt 32 0)))).
  destruct (switch_cases id Cond Labels cs (S Inc) _) as [code D2].
  cbn [fst] in *.
  repeat (apply Forall_app; split); try done.
  - by repeat constructor.
  - eapply Forall_impl; [exact Hc|]. intros i Hi. split.
    + by apply tagged_not_call.
    + destruct (reporter_id i) eqn:E; [|done].
      apply reporter_id_collector in E. congruence.
  - repeat constructor; done.
Qed.

Lemma switch_code_calls (id : Z) (ops : list Value) :
  Forall (fun i => tagged id i ∧ reporter_id i = None) (switch_code id ops).
Proof.
  unfold switch_code. case_decide; [|constructor].
  pose proof (switch_cases_calls id (getCondition ops) (compute_labels ops)
                (cases ops) 0 (ConstantInt 32 0)) as Hc.
  destruct (switch_cases id _ _ _ _ _) as [code D]. cbn [fst] in Hc.
  apply Forall_app. split; [done|]. repeat constructor; done.
Qed.

Lemma icmp_code_calls (id : Z) (A0 A1 : Value) :
  Forall (fun i => tagged id i ∧ reporter_id i = None) (icmp_code id A0 A1).
Proof.
  unfold icmp_code. destruct (isIntegerTy _); [|constructor].
  case_decide; [|constructor].
  pose proof (CreateIntCast_calls (BinaryOperator Xor A0 A1) Int32Ty false)
    as Hc.
  destruct (CreateIntCast (BinaryOperator Xor A0 A1) Int32Ty false)
    as [Dist cast]. cbn [snd] in Hc.
  repeat (apply Forall_app; split).
  - by repeat constructor.
  - eapply Forall_impl; [exact Hc|]. intros i Hi. split.
    + by apply tagged_not_call.
    + destruct (reporter_id i) eqn:E; [|done].
      apply reporter_id_collector in E. congruence.
  - repeat constructor; done.
Qed.

Lemma edge_code_calls (id : Z) (cur_loc : Z) :
  Forall (fun i => tagged id i ∧ reporter_id i = None) (edge_code cur_loc).
Proof. rewrite edge_code_eq. repeat constructor; done. Qed.

Lemma uninstrumented_calls (id : Z) (bb : BasicBlock) :
  uninstrumented bb ->
  Forall (fun i => tagged id i ∧ reporter_id i = None) bb.
Proof.
  intros Hbb. eapply Forall_impl; [exact Hbb|]. intros i Hi. split.
  - by apply tagged_not_call.
  - destruct (reporter_id i) eqn:E; [|done].
    apply reporter_id_collector in E. congruence.
Qed.

Lemma omap_none {A B} (f : A -> option B) (l : list A) :
  Forall (fun x => f x = None) l -> omap f l = [].
Proof.
  induction 1 as [|x l Hx _ IH]; [done|]. cbn [omap list_omap].
  by rewrite Hx.
Qed.

(** A sampled block gets one reporter call, and every call to the collector
    in it carries the identifier of the block. *)
Lemma instrument_block_calls (k : Z) (w : World) (inst_ratio : Z)
    (st : PassState) (bb : BasicBlock) :
  AFL_R 100 (random w (rand_calls st)) < inst_ratio ->
  uninstrumented bb ->
  let out := (instrument_block k w inst_ratio st bb).2 in
  reporter_ids out = [wrap32 (CurId st + 1)] ∧
  Forall (tagged (wrap32 (CurId st + 1))) out.
Proof.
  intros Hd Hbb out.
  destruct (instrument_block_perm k w inst_ratio st bb Hd) as (code & Hp & Hc).
  fold out in Hp. set (id := wrap32 (CurId st + 1)) in *.
  assert (Hrest : Forall (fun i => tagged id i ∧ reporter_id i = None)
            (code ++ edge_code
               (AFL_R (MAP_SIZE k) (random w (S (rand_calls st)))) ++ bb)).
  { apply Forall_app; split; [|apply Forall_app; split].
    - destruct Hc as [->|[(ops & ->)|(A0 & A1 & ->)]];
        [constructor|apply switch_code_calls|apply icmp_code_calls].
    - apply edge_code_calls.
    - by apply uninstrumented_calls. }
  split.
  - apply Permutation_singleton_r. unfold reporter_ids. rewrite Hp.
    cbn [omap list_omap]. change (reporter_id (insert_block id)) with (Some id).
    cbn. rewrite omap_none; [done|].
    eapply Forall_impl; [exact Hrest|]. by intros i [_ ?].
  - rewrite Hp. constructor; [done|].
    eapply Forall_impl; [exact Hrest|]. by intros i [? _].
Qed.

(** ** The loop over the module *)

Lemma for_each_app {S A B} (f : S -> A -> S * B) (l1 l2 : list A) (s : S) :
  for_each f s (l1 ++ l2) =
  ((for_each f (for_each f s l1).1 l2).1,
   (for_each f s l1).2 ++ (for_each f (for_each f s l1).1 l2).2).
Proof.
  revert s; induction l1 as [|a l1 IH]; intros s.
  - simpl. by destruct (for_each f s l2).
  - cbn [for_each app]. destruct (f s a) as [s1 b]. rewrite IH.
    destruct (for_each f s1 l1) as [s2 bs]. cbn [fst snd].
    by destruct (for_each f s2 l2).
Qed.

Lemma for_each_concat {S A B} (f : S -> A -> S * B) (ll : list (list A))
    (s : S) :
  for_each f s (concat ll) =
  ((for_each (for_each f) s ll).1, concat (for_each (for_each f) s ll).2).
Proof.
  revert s; induction ll as [|l ll IH]; intros s; [done|].
  cbn [concat for_each]. rewrite for_each_app, IH.
  destruct (for_each f s l) as [s1 bs]. cbn [fst snd].
  by destruct (for_each (for_each f) s1 ll).
Qed.

Lemma wrap32_idemp_add (c j : Z) : wrap32 (wrap32 c + j) = wrap32 (c + j).
Proof. unfold wrap32, wrap. apply Zplus_mod_idemp_l. Qed.

Lemma ids_from_S (c : Z) (n : nat) :
  ids_from c (S n) = wrap32 (c + 1) :: ids_from (wrap32 (c + 1)) n.
Proof.
  unfold ids_from. cbn [seq fmap list_fmap]. f_equal.
  rewrite <- fmap_S_seq, <- list_fmap_compose.
  apply list_fmap_ext. intros _ j _. simpl.
  rewrite wrap32_idemp_add. f_equal. lia.
Qed.

Lemma ids_from_small (c : Z) (n : nat) :
  0 ≤ c -> c + Z.of_nat n < 2 ^ 32 ->
  ids_from c n = (fun j => c + Z.of_nat j) <$> seq 1 n.
Proof.
  intros Hc Hn. unfold ids_from. apply list_fmap_ext. intros i j Hj.
  apply list_elem_of_lookup_2, elem_of_seq in Hj.
  apply wrap32_small. lia.
Qed.

Lemma ids_from_NoDup (c : Z) (n : nat) :
  Z.of_nat n ≤ 2 ^ 32 -> NoDup (ids_from c n).
Proof.
  intros Hn. unfold ids_from. apply NoDup_fmap_2_strong; [|apply NoDup_seq].
  intros i j Hi%elem_of_seq Hj%elem_of_seq Heq.
  unfold wrap32, wrap in Heq.
  assert (Hd : (c + Z.of_nat i - (c + Z.of_nat j)) mod 2 ^ Z.of_N 32 = 0).
  { rewrite Zminus_mod, Heq, Z.sub_diag. done. }
  apply Z.mod_divide in Hd; [|done]. destruct Hd as [q Hq].
  change (2 ^ Z.of_N 32) with 4294967296 in Hq.
  change (2 ^ 32) with 4294967296 in Hn. nia.
Qed.

Section Blocks.
Variable MAP_SIZE_POW2 : Z.
Variable w : World.
Variable inst_ratio : Z.

Lemma blocks_ids (bbs : list BasicBlock) :
  ∀ st : PassState,
    Forall uninstrumented bbs -> wrap32 (CurId st) = CurId st ->
    let R := for_each (instrument_block MAP_SIZE_POW2 w inst_ratio) st bbs in
    ∃ n : nat,
      (n ≤ length bbs)%nat ∧
      inst_blocks R.1 = inst_blocks st + Z.of_nat n ∧
      CurId R.1 = wrap32 (CurId st + Z.of_nat n) ∧
      concat (map reporter_ids R.2) = ids_from (CurId st) n ∧
      Forall (fun b => uninstrumented b ∨
                       ∃ id, reporter_ids b = [id] ∧ Forall (tagged id) b) R.2.
Proof.
  induction bbs as [|bb bbs IH]; intros st Hbbs Hc; cbn zeta.
  - exists 0%nat. cbn [for_each fst snd map concat length].
    rewrite !Z.add_0_r. split; [lia|]. split; [done|]. split; [done|].
    split; [done|constructor].
  - apply Forall_cons in Hbbs as [Hbb Hbbs]. cbn [for_each].
    destruct (decide (inst_ratio ≤ AFL_R 100 (random w (rand_calls st))))
      as [Hskip|Hsamp].
    + rewrite instrument_block_skipped by done.
      destruct (IH {| CurId := CurId st; inst_blocks := inst_blocks st;
                      rand_calls := S (rand_calls st) |} Hbbs Hc)
        as (n & Hn & Hib & Hid & Hids & Hall).
      destruct (for_each _ _ bbs) as [st2 bbs']. cbn [fst snd CurId inst_blocks] in *.
      exists n. split; [simpl; lia|]. split; [done|]. split; [done|]. split.
      * cbn [map concat]. rewrite uninstrumented_reporter_ids by done. done.
      * constructor; [by left|done].
    + pose proof (instrument_block_calls MAP_SIZE_POW2 w inst_ratio st bb
                    ltac:(lia) Hbb) as [Hrep Htag].
      rewrite instrument_block_sampled in * by lia. cbn [snd] in Hrep, Htag.
      set (out := BB (Insert _ _)) in *.
      set (st1 := {| CurId := wrap32 (CurId st + 1);
                     inst_blocks := inst_blocks st + 1;
                     rand_calls := S (S (rand_calls st)) |}).
      destruct (IH st1 Hbbs) as (n & Hn & Hib & Hid & Hids & Hall).
      { unfold st1. cbn [CurId]. apply wrap32_small. apply wrap_range. }
      destruct (for_each _ st1 bbs) as [st2 bbs']. cbn [fst snd] in *.
      unfold st1 in Hib, Hid, Hids. cbn [CurId inst_blocks] in *.
      exists (S n). split; [simpl; lia|]. split; [lia|]. split; [|split].
      * rewrite Hid, wrap32_idemp_add. f_equal. lia.
      * cbn [map concat]. rewrite Hrep, Hids, ids_from_S. done.
      * constructor; [|done]. right. by exists (wrap32 (CurId st + 1)).
Qed.

Lemma blocks_length (bbs : list BasicBlock) (st : PassState) :
  length (for_each (instrument_block MAP_SIZE_POW2 w inst_ratio) st bbs).2
  = length bbs.
Proof.
  revert st; induction bbs as [|bb bbs IH]; intros st; [done|].
  cbn [for_each]. destruct (instrument_block _ _ _ st bb) as [st1 b].
  specialize (IH st1). destruct (for_each _ st1 bbs) as [st2 bs].
  simpl in *. by rewrite IH.
Qed.

End Blocks.

(** ** Where the pass puts its code in a block *)

Lemma take_inserted {A} (n p : nat) (code l : list A) :
  (n ≤ p)%nat -> (p ≤ length l)%nat ->
  take n (take p l ++ code ++ drop p l) = take n l.
Proof.
  intros Hn Hp. rewrite take_app_le by (rewrite length_take; lia).
  rewrite take_take. f_equal. lia.
Qed.

Lemma edge_block_lookup (bb : BasicBlock) (p0 : nat) (loc : Z) (j : nat) :
  (p0 ≤ length bb)%nat -> (j < 8)%nat ->
  (take p0 bb ++ edge_code loc ++ drop p0 bb) !! (p0 + j)%nat
  = edge_code loc !! j.
Proof.
  intros Hp Hj. rewrite lookup_app_r by (rewrite length_take; lia).
  rewrite length_take. replace (p0 + j - p0 `min` length bb)%nat with j by lia.
  apply lookup_app_l. rewrite edge_code_length. lia.
Qed.

Section Placement.
Variable MAP_SIZE_POW2 : Z.
Variable w : World.
Variable inst_ratio : Z.
Variable st : PassState.
Hypothesis sampled : AFL_R 100 (random w (rand_calls st)) < inst_ratio.

Local Abbreviation location :=
  (AFL_R (MAP_SIZE MAP_SIZE_POW2) (random w (S (rand_calls st)))).
Local Abbreviation next_id := (wrap32 (CurId st + 1)).
Local Abbreviation instrumented bb :=
  ((instrument_block MAP_SIZE_POW2 w inst_ratio st bb).2).

(** The edge coverage code sits at the first insertion point. *)
Lemma instrument_block_edge (bb : BasicBlock) :
  let p0 := getFirstInsertionPt bb in
  take (p0 + 8) (instrumented bb) = take p0 bb ++ edge_code location.
Proof.
  intros p0. rewrite instrument_block_sampled by done. cbn [snd]. fold p0.
  set (blk := take p0 bb ++ edge_code location ++ drop p0 bb).
  pose proof (getFirstInsertionPt_le bb) as Hp0. fold p0 in Hp0.
  assert (Hblk : length blk = (length bb + 8)%nat).
  { unfold blk. rewrite !length_app, length_take, length_drop,
      edge_code_length. lia. }
  assert (Htake : take (p0 + 8) blk = take p0 bb ++ edge_code location).
  { unfold blk. rewrite app_assoc. apply take_app_length'.
    rewrite length_app, length_take, edge_code_length. lia. }
  destruct (distance_analyzer_shape next_id blk (p0 + 8))
    as (pos & code & Hpos & -> & Hcode).
  assert (Hcase : code = [] ∨ (p0 + 8 ≤ pos)%nat).
  { destruct Hcode as [?|[(ops & Hl & Hs & _)|
                          (p & A0 & A1 & ops & Hl & _ & _ & Hs & _)]];
      [by left|right..].
    - destruct (decide (p0 + 8 ≤ pos)%nat); [done|].
      assert (pos = p0 + 7)%nat as -> by lia.
      unfold blk in Hl. rewrite edge_block_lookup in Hl by lia.
      by rewrite edge_code_eq in Hl.
    - destruct (decide (p0 + 8 ≤ pos)%nat); [done|].
      assert (pos = p0 + 6 ∨ pos = p0 + 7)%nat as [-> | ->] by lia;
        unfold blk in Hl; rewrite edge_block_lookup in Hl by lia;
        by rewrite edge_code_eq in Hl. }
  destruct Hcase as [->|Hge].
  - rewrite InsertBefore_nil. unfold Insert. cbn [BB InsertPt].
    rewrite (cons_middle _ (take _ _)).
    rewrite take_inserted by lia. done.
  - rewrite InsertBefore_spec by done. unfold Insert. cbn [BB InsertPt].
    rewrite (cons_middle _ (take _ _)).
    rewrite take_inserted.
    + rewrite take_inserted by lia. done.
    + case_decide; lia.
    + rewrite !length_app, length_take, length_drop. case_decide; lia.
Qed.

Lemma placement_split (pre rest : BasicBlock) :
  take (length pre) (pre ++ rest) ++ edge_code location ++
    drop (length pre) (pre ++ rest)
  = (pre ++ edge_code location) ++ rest.
Proof. by rewrite take_app_length, drop_app_length, app_assoc. Qed.

(** A switch that is not the instruction at the first insertion point. *)
Lemma instrument_block_switch (pre body : BasicBlock) (x : Instruction)
    (ops : list Value) :
  let bb := pre ++ x :: body ++ [SwitchInst ops] in
  getFirstInsertionPt bb = length pre ->
  instrumented bb =
  pre ++ edge_code location ++ [insert_block next_id] ++ x :: body ++
    switch_code next_id ops ++ [SwitchInst ops].
Proof.
  intros bb Hp0. rewrite instrument_block_sampled by done. cbn [snd].
  rewrite Hp0. unfold bb. rewrite placement_split.
  replace ((pre ++ edge_code location) ++ x :: body ++ [SwitchInst ops])
    with (((pre ++ edge_code location) ++ x :: body) ++ [SwitchInst ops])
    by (by rewrite <- !app_assoc).
  rewrite distance_analyzer_switch
    by (rewrite !length_app, edge_code_length; simpl; lia).
  rewrite decide_False
    by (rewrite !length_app, edge_code_length; simpl; lia).
  unfold Insert. cbn [BB InsertPt].
  rewrite <- (app_assoc (pre ++ edge_code location)).
  rewrite take_app_length', drop_app_length'
    by (rewrite length_app, edge_code_length; lia).
  rewrite <- !app_assoc. done.
Qed.

(** A switch at the first insertion point. *)
Lemma instrument_block_switch_first (pre : BasicBlock) (ops : list Value) :
  let bb := pre ++ [SwitchInst ops] in
  getFirstInsertionPt bb = length pre ->
  instrumented bb =
  pre ++ edge_code location ++ switch_code next_id ops ++
    [insert_block next_id; SwitchInst ops].
Proof.
  intros bb Hp0. rewrite instrument_block_sampled by done. cbn [snd].
  rewrite Hp0. unfold bb. rewrite placement_split.
  rewrite distance_analyzer_switch
    by (rewrite !length_app, edge_code_length; simpl; lia).
  rewrite decide_True
    by (rewrite !length_app, edge_code_length; simpl; lia).
  unfold Insert. cbn [BB InsertPt].
  rewrite (app_assoc _ (switch_code _ _)).
  rewrite take_app_length', drop_app_length'
    by (rewrite !length_app, edge_code_length; lia).
  rewrite <- !app_assoc. done.
Qed.

(** A comparison and its branch, the comparison not at the first
    insertion point. *)
Lemma instrument_block_icmp (pre body : BasicBlock) (x : Instruction)
    (p : Predicate) (A0 A1 : Value) (ops : list Value) :
  let bb := pre ++ x :: body ++ [Def (ICmpInst p A0 A1); BranchInst ops] in
  getFirstInsertionPt bb = length pre -> isConditional ops = true ->
  instrumented bb =
  pre ++ edge_code location ++ [insert_block next_id] ++ x :: body ++
    icmp_code next_id A0 A1 ++ [Def (ICmpInst p A0 A1); BranchInst ops].
Proof.
  intros bb Hp0 Hc. rewrite instrument_block_sampled by done. cbn [snd].
  rewrite Hp0. unfold bb. rewrite placement_split.
  replace ((pre ++ edge_code location) ++ x :: body ++
             [Def (ICmpInst p A0 A1); BranchInst ops])
    with (((pre ++ edge_code location) ++ x :: body) ++
             [Def (ICmpInst p A0 A1); BranchInst ops])
    by (by rewrite <- !app_assoc).
  rewrite distance_analyzer_icmp;
    [|rewrite !length_app, edge_code_length; simpl; lia|done].
  rewrite decide_False
    by (rewrite !length_app, edge_code_length; simpl; lia).
  unfold Insert. cbn [BB InsertPt].
  rewrite <- (app_assoc (pre ++ edge_code location)).
  rewrite take_app_length', drop_app_length'
    by (rewrite length_app, edge_code_length; lia).
  rewrite <- !app_assoc. done.
Qed.

(** A comparison at the first insertion point. *)
Lemma instrument_block_icmp_first (pre : BasicBlock) (p : Predicate)
    (A0 A1 : Value) (ops : list Value) :
  let bb := pre ++ [Def (ICmpInst p A0 A1); BranchInst ops] in
  getFirstInsertionPt bb = length pre -> isConditional ops = true ->
  instrumented bb =
  pre ++ edge_code location ++ icmp_code next_id A0 A1 ++
    [insert_block next_id; Def (ICmpInst p A0 A1); BranchInst ops].
Proof.
  intros bb Hp0 Hc. rewrite instrument_block_sampled by done. cbn [snd].
  rewrite Hp0. unfold bb. rewrite placement_split.
  rewrite distance_analyzer_icmp;
    [|rewrite !length_app, edge_code_length; simpl; lia|done].
  rewrite decide_True
    by (rewrite !length_app, edge_code_length; simpl; lia).
  unfold Insert. cbn [BB InsertPt].
  rewrite (app_assoc _ (icmp_code _ _ _)).
  rewrite take_app_length', drop_app_length'
    by (rewrite !length_app, edge_code_length; lia).
  rewrite <- !app_assoc. done.
Qed.

End Placement.

(** * The claims *)

Lemma compute_labels_length (c d : Value) (cs : list (Value * Value)) :
  Z.of_nat (length cs) < 2 ^ 32 - 2 ->
  length (compute_labels (mkSwitch c d cs)) = S (length cs).
Proof.
  intros Hn. rewrite compute_labels_mkSwitch by done.
  unfold first_occurrence_labels. rewrite label_pass_length. simpl.
  by rewrite length_fmap.
Qed.

Lemma imap_labels {A B} (g : Z -> B) (L : list Z) (l : list A) :
  length L = S (length l) ->
  imap (fun i _ => g (L !!! S i)) l = g <$> drop 1 L.
Proof.
  intros HL. apply list_eq. intros i.
  rewrite list_lookup_imap, list_lookup_fmap, lookup_drop.
  destruct (l !! i) as [x|] eqn:E; simpl.
  - apply lookup_lt_Some in E.
    replace (1 + i)%nat with (S i) by lia.
    rewrite (list_lookup_lookup_total_lt L (S i)) by lia. done.
  - apply lookup_ge_None in E. rewrite lookup_ge_None_2 by lia. done.
Qed.

(** C1, as the code has it.  The label loop runs over the destinations of
    the switch, the default destination first and then the destination of
    every case, and numbers them from 1 in the order of their first
    occurrence: the default destination has label 1, cases that share a
    destination share a label, no label is 0.  The record of case [i]
    carries the label of its destination and the default record carries
    label 1. *)
Theorem C1_case_labels (id : Z) (Cond d : Value) (cs : list (Value * Value))
    (rt : Runtime) (w : N) :
  getType Cond = IntegerTy w -> (w ≤ 64)%N ->
  Z.of_nat (length cs) < 2 ^ 32 - 2 ->
  let sw := mkSwitch Cond d cs in
  let Labels := compute_labels sw in
  Labels = first_occurrence_labels (d :: cs.*2) ∧
  Labels !!! 0%nat = 1 ∧
  Forall (fun l => 1 ≤ l ≤ Z.of_nat (S (length cs))) Labels ∧
  ∃ rs, reports (run rt (switch_code id sw)) = reports rt ++ rs ∧
        report_label <$> rs = Some <$> (drop 1 Labels ++ [1]).
Proof.
  intros Ht Hw Hn. cbn zeta.
  set (Labels := compute_labels (mkSwitch Cond d cs)).
  assert (HL : Labels = first_occurrence_labels (d :: cs.*2))
    by (by apply compute_labels_mkSwitch).
  assert (H0 : Labels !!! 0%nat = 1) by (by rewrite HL).
  split; [done|]. split; [done|]. split.
  - rewrite HL. unfold first_occurrence_labels.
    pose proof (label_pass_range (d :: cs.*2) []) as Hr.
    simpl in Hr. rewrite length_fmap in Hr. exact Hr.
  - destruct (switch_code_run id Cond d cs rt w Ht Hw Hn) as [D ->].
    fold Labels. cbn [log reports]. eexists. split; [reflexivity|].
    rewrite fmap_app, fmap_imap. cbn [fmap list_fmap]. rewrite H0.
    rewrite (fmap_app _ (drop 1 Labels)). f_equal.
    rewrite <- (imap_labels (B := option Z) Some Labels cs.*1).
    + apply imap_ext. by intros.
    + unfold Labels. rewrite compute_labels_length by done.
      by rewrite length_fmap.
Qed.

Lemma C1_case_labels_witness :
  compute_labels sample_switch = [1; 2; 3; 4] ∧
  ∃ rs, reports (run sample_runtime (switch_code 7 sample_switch)) = rs ∧
        report_label <$> rs = [Some 2; Some 3; Some 4; Some 1].
Proof.
  destruct (C1_case_labels 7 (Opaque 0 Int32Ty) (BasicBlockRef 0)
              [(ConstantInt 32 10, BasicBlockRef 1);
               (ConstantInt 32 20, BasicBlockRef 2);
               (ConstantInt 32 30, BasicBlockRef 3)] sample_runtime 32
              eq_refl ltac:(done) ltac:(done))
    as (HL & _ & _ & rs & Hrs & Hlab).
  split; [exact HL|]. exists rs. split; [exact Hrs|].
  rewrite Hlab. cbv zeta. rewrite HL. reflexivity.
Defined.

(** C1 as stated fails: with three cases of distinct values and distinct
    destinations the records carry the labels 2, 3, 4 and the default record
    carries 1, not 1, 2, 3 and 0. *)
Lemma C1_counterexample :
  omap report_label (reports (run sample_runtime (switch_code 7 sample_switch)))
  ≠ first_occurrence_labels (cases sample_switch) ++ [0].
Proof. vm_compute. discriminate. Qed.

Lemma u32_of_bytes_range (bs : list Z) :
  0 ≤ u32_of_bytes bs < 256 ^ Z.of_nat (length bs).
Proof.
  induction bs as [|b bs IH]; [simpl; lia|].
  cbn [u32_of_bytes foldr length]. fold (u32_of_bytes bs).
  pose proof (wrap_range 8 b) as Hb. change (2 ^ Z.of_N 8) with 256 in Hb.
  rewrite Nat2Z.inj_succ, Z.pow_succ_r by lia. nia.
Qed.

Lemma instrument_module_blocks (k : Z) (w : World) (r : Z) (st : PassState)
    (M : Module) :
  for_each (instrument_block k w r) st (concat M) =
  ((instrument_module k w r st M).1, concat (instrument_module k w r st M).2).
Proof. apply for_each_concat. Qed.

(** C2, as the code has it.  The counter is incremented before the block
    uses it (line 174), so a pass that reads [prior] from the counter file
    and samples [totalSampled] blocks puts the identifiers [prior + 1], ...,
    [prior + totalSampled] into its reporter calls, in the order in which it
    visits the blocks, and writes [prior + totalSampled] back; the
    identifiers are [u32] values, and are these very numbers when the
    counter does not wrap. *)
Theorem C2_block_ids (k : Z) (w : World) (M : Module) (r : Z)
    (file : list Z) :
  decide_ratio (AFL_INST_RATIO w) = Done r ->
  open_ok w = true -> write_ok w = true ->
  cur_id_file w = Some file -> (4 ≤ length file)%nat ->
  Forall uninstrumented (concat M) ->
  let prior := u32_of_bytes (take 4 file) in
  let R := instrument_module k w r
             {| CurId := prior; inst_blocks := 0; rand_calls := 0 |} M in
  let totalSampled := Z.to_nat (inst_blocks R.1) in
  runOnModule k w M =
    Done (R.2, bytes_of_u32 (wrap32 (prior + Z.of_nat totalSampled))
               ++ drop 4 file) ∧
  module_reporter_ids R.2 = ids_from prior totalSampled ∧
  (prior + Z.of_nat totalSampled < 2 ^ 32 ->
   module_reporter_ids R.2
   = (fun j => prior + Z.of_nat j) <$> seq 1 totalSampled ∧
   NoDup (module_reporter_ids R.2)).
Proof.
  intros Hr Hopen Hwrite Hfile Hlen HM prior R totalSampled.
  assert (Hprior : 0 ≤ prior < 2 ^ 32).
  { pose proof (u32_of_bytes_range (take 4 file)) as Hb.
    rewrite length_take in Hb.
    replace (4 `min` length file)%nat with 4%nat in Hb by lia. exact Hb. }
  set (st0 := {| CurId := prior; inst_blocks := 0; rand_calls := 0 |}) in *.
  destruct (blocks_ids k w r (concat M) st0 HM)
    as (n & Hn & Hib & Hid & Hids & _).
  { by apply wrap32_small. }
  rewrite instrument_module_blocks in Hib, Hid, Hids.
  fold R in Hib, Hid, Hids. cbn [fst snd] in Hib, Hid, Hids.
  assert (Htot : totalSampled = n).
  { unfold totalSampled. rewrite Hib. simpl. lia. }
  assert (Hmod : module_reporter_ids R.2 = ids_from prior n) by exact Hids.
  split; [|split].
  - unfold runOnModule. rewrite Hr, Hopen, Hwrite, Hfile.
    cbn [negb default from_option id].
    rewrite decide_False by (rewrite length_take; lia).
    fold prior. fold st0. fold R. destruct R as [st M'] eqn:ER.
    cbn [fst snd] in *. by rewrite Hid, Htot.
  - by rewrite Htot.
  - intros Hsmall. rewrite Htot in Hsmall. rewrite Hmod, Htot. split.
    + apply ids_from_small; lia.
    + apply ids_from_NoDup. lia.
Qed.

Lemma C2_block_ids_witness :
  ∃ M', runOnModule 16 sample_world sample_module = Done (M', [8; 0; 0; 0]) ∧
        module_reporter_ids M' = [6; 7; 8].
Proof.
  destruct (C2_block_ids 16 sample_world sample_module 100 [5; 0; 0; 0]
              eq_refl eq_refl eq_refl eq_refl ltac:(simpl; lia)
              ltac:(repeat constructor))
    as (Hrun & Hids & _).
  eexists. split; [exact Hrun|]. rewrite Hids. reflexivity.
Defined.

(** C2 as stated fails: starting from the counter value 5 and sampling
    three blocks, the reporter calls carry 6, 7 and 8, not 5, 6 and 7. *)
Lemma C2_counterexample :
  ∃ M' file', runOnModule 16 sample_world sample_module = Done (M', file') ∧
    u32_of_bytes (take 4 [5; 0; 0; 0]) = 5 ∧
    length (module_reporter_ids M') = 3%nat ∧
    module_reporter_ids M' ≠ (fun j => 5 + Z.of_nat j) <$> seq 0 3.
Proof.
  eexists _, _. split; [vm_compute; reflexivity|].
  split; [reflexivity|]. split; [reflexivity|]. vm_compute. discriminate.
Qed.

(** The sum that the loop of lines 208-217 builds for a switch with at
    least one case: an [add] whose first operand has 32 bits and whose
    second is the one-bit result of a comparison. *)
Lemma switch_cases_sum (id : Z) (Cond : Value) (Labels : list Z)
    (cs : list Value) :
  ∀ (v : Value) (Inc : nat) (D : Value),
    getType D = Int32Ty ->
    let R := switch_cases id Cond Labels (v :: cs) Inc D in
    ∃ D0 Dist,
      let N := ICmpInst ICMP_NE Dist (ConstantInt 32 0) in
      R.2 = BinaryOperator Add D0 N ∧ getType D0 = Int32Ty ∧
      Def (BinaryOperator Add D0 N) ∈ R.1.
Proof.
  induction cs as [|v' cs IH]; intros v Inc D HD; cbn zeta.
  - cbn [switch_cases].
    destruct (CreateIntCast (BinaryOperator Xor Cond v) Int32Ty false)
      as [Dist cast]. cbn [fst snd].
    exists D, Dist. split; [reflexivity|]. split; [done|].
    rewrite !elem_of_app. right. right. left.
    rewrite !elem_of_cons. right. right. by left.
  - remember (v' :: cs) as l eqn:El. cbn [switch_cases]. subst l.
    destruct (CreateIntCast (BinaryOperator Xor Cond v) Int32Ty false)
      as [Dist cast].
    set (D' := BinaryOperator Add D (ICmpInst ICMP_NE Dist (ConstantInt 32 0))).
    destruct (IH v' (S Inc) D' HD) as (D0 & Dist0 & HR & HD0 & Hin).
    destruct (switch_cases id Cond Labels (v' :: cs) (S Inc) D')
      as [code D2]. cbn [fst snd] in *.
    exists D0, Dist0. split; [done|]. split; [done|].
    rewrite !elem_of_app. by do 3 right.
Qed.

Lemma verify_false (code : list Instruction) (i : Instruction) :
  i ∈ code -> visit i = false -> verify code = false.
Proof.
  intros Hin Hi. unfold verify. destruct (forallb visit code) eqn:E; [|done].
  rewrite forallb_forall in E. rewrite <- (E i), Hi; [done|].
  by apply list_elem_of_In.
Qed.

(** The edge coverage code and the comparison code are accepted by the
    verifier. *)
Lemma edge_code_verify (cur_loc : Z) : verify (edge_code cur_loc) = true.
Proof. reflexivity. Qed.

Lemma icmp_code_verify (id : Z) (A0 A1 : Value) :
  getType A1 = getType A0 -> verify (icmp_code id A0 A1) = true.
Proof.
  intros Ht. unfold icmp_code.
  destruct (getType A0) as [w| | | |] eqn:E0; try done.
  cbn [isIntegerTy getScalarSizeInBits Int64Ty]. case_decide as Hw; [|done].
  unfold CreateIntCast. cbn [getType]. rewrite E0.
  assert (HX : visit (Def (BinaryOperator Xor A0 A1)) = true).
  { cbn [visit]. unfold visitBinaryOperator. rewrite Ht, E0.
    by rewrite bool_decide_eq_true_2. }
  case_decide as Heq; cbn [app verify forallb]; rewrite HX; [done|].
  cbn [visit getType]. unfold visitCastInst. rewrite E0.
  cbn [getScalarSizeInBits Int32Ty andb].
  case_decide as Hlt; cbn [andb].
  - by rewrite bool_decide_eq_true_2.
  - rewrite bool_decide_eq_true_2; [done|].
    assert (w ≠ 32%N) by (intros ->; by apply Heq). lia.
Qed.

(** C3: what the code emits for the default record.  The loop of lines
    208-217 adds [NotCovered], the one-bit result of a comparison, to the
    32-bit [DefaultDis] as it is, without extending it.  So for every
    switch with at least one case, over a value of at most 64 bits, the
    distance that the default record passes is [numCases] minus an [add]
    whose two operands have different types, an [i32] and an [i1], and that
    [add] is among the emitted instructions: the verifier refuses the
    switch code, and the count of the cases with a nonzero distance that
    the code means to subtract is not computed. *)
Theorem C3_default_distance_ill_typed (id : Z) (Cond d : Value)
    (c : Value * Value) (cs : list (Value * Value)) :
  (getScalarSizeInBits (getType Cond) ≤ 64)%N ->
  Z.of_nat (length (c :: cs)) < 2 ^ 32 - 2 ->
  let sw := mkSwitch Cond d (c :: cs) in
  let numCases := getNumCases sw in
  let Label := ConstantInt 32 (compute_labels sw !!! 0%nat) in
  ∃ (code : list Instruction) (DefaultDis Distance : Value),
    let NotCovered := ICmpInst ICMP_NE Distance (ConstantInt 32 0) in
    let Sum := BinaryOperator Add DefaultDis NotCovered in
    let Default := BinaryOperator Sub (ConstantInt 32 numCases) Sum in
    switch_code id sw
      = code ++ [Def Default; insert_distance id Label Default] ∧
    Def Sum ∈ code ∧
    getType DefaultDis = IntegerTy 32 ∧ getType NotCovered = IntegerTy 1 ∧
    visit (Def Sum) = false ∧
    verify (switch_code id sw) = false.
Proof.
  intros Hw Hn sw numCases Label.
  assert (Hcode : ∃ code D Dist,
    let N := ICmpInst ICMP_NE Dist (ConstantInt 32 0) in
    switch_code id sw =
      code ++ [Def (BinaryOperator Sub (ConstantInt 32 numCases)
                      (BinaryOperator Add D N));
               insert_distance id Label
                 (BinaryOperator Sub (ConstantInt 32 numCases)
                    (BinaryOperator Add D N))] ∧
    Def (BinaryOperator Add D N) ∈ code ∧
    getType D = IntegerTy 32).
  { unfold switch_code. change (getCondition sw) with Cond.
    cbn [getScalarSizeInBits Int64Ty]. rewrite decide_True by done.
    unfold sw at 2. rewrite mkSwitch_cases by lia. rewrite fmap_cons.
    destruct (switch_cases_sum id Cond (compute_labels sw) cs.*1 c.1 0
                (ConstantInt 32 0) eq_refl) as (D & Dist & HR & HD & Hin).
    destruct (switch_cases id Cond (compute_labels sw) (c.1 :: cs.*1) 0
                (ConstantInt 32 0)) as [code D2]. cbn [fst snd] in *.
    subst D2. by exists code, D, Dist. }
  destruct Hcode as (code & D & Dist & Heq & Hin & HD).
  exists code, D, Dist. cbn zeta in *.
  set (N := ICmpInst ICMP_NE Dist (ConstantInt 32 0)) in *.
  assert (Hv : visit (Def (BinaryOperator Add D N)) = false).
  { cbn [visit]. unfold visitBinaryOperator. rewrite HD.
    by rewrite bool_decide_eq_false_2. }
  split; [done|]. split; [done|]. split; [done|]. split; [done|].
  split; [done|].
  apply (verify_false _ (Def (BinaryOperator Add D N))); [|done].
  rewrite Heq, elem_of_app. by left.
Qed.

Lemma C3_default_distance_ill_typed_witness :
  verify (switch_code 7 sample_switch) = false ∧
  Def (BinaryOperator Add (ConstantInt 32 0)
         (ICmpInst ICMP_NE
            (BinaryOperator Xor (Opaque 0 Int32Ty) (ConstantInt 32 10))
            (ConstantInt 32 0)))
    ∈ switch_code 7 sample_switch ∧
  verify switch_block = true ∧
  verify (instrument_block 16 sample_world 100 fresh_state switch_block).2
  = false.
Proof.
  destruct (C3_default_distance_ill_typed 7 (Opaque 0 Int32Ty)
              (BasicBlockRef 0) (ConstantInt 32 10, BasicBlockRef 1)
              [(ConstantInt 32 20, BasicBlockRef 2);
               (ConstantInt 32 30, BasicBlockRef 3)]
              ltac:(vm_compute; discriminate) ltac:(done))
    as (code & D & Dist & _ & _ & _ & _ & _ & Hverify).
  split; [exact Hverify|]. split; [|split; reflexivity].
  apply list_elem_of_In. vm_compute. right. right. right. by left.
Defined.

Lemma land_ones_lxor (a b : Z) (n : Z) :
  0 ≤ n -> Z.lxor a b mod 2 ^ n = Z.lxor (a mod 2 ^ n) (b mod 2 ^ n).
Proof.
  intros Hn. rewrite <- !Z.land_ones by done.
  apply Z.bits_inj'. intros i Hi.
  rewrite Z.lxor_spec, !Z.land_spec, Z.lxor_spec.
  destruct (Z.testbit (Z.ones n) i); by rewrite ?andb_true_r, ?andb_false_r.
Qed.

Lemma wrap_lxor_zero (a b : Z) :
  wrap 32 (Z.lxor a b) = 0 <-> wrap 32 a = wrap 32 b.
Proof.
  unfold wrap. rewrite land_ones_lxor by done. apply Z.lxor_eq_0_iff.
Qed.

(** A branch whose preceding instruction is not an integer comparison gets
    no distance code. *)
Lemma distance_analyzer_branch_other (id : Z) (body : BasicBlock)
    (x : Instruction) (ops : list Value) (pt : nat) :
  (∀ p A0 A1, x ≠ Def (ICmpInst p A0 A1)) ->
  distance_analyzer id (mkIRB (body ++ [x; BranchInst ops]) pt) =
  mkIRB (body ++ [x; BranchInst ops]) pt.
Proof.
  intros Hx. unfold distance_analyzer. cbn [BB].
  case_decide as Hlen; [|done].
  rewrite length_app in *. cbn [length] in *.
  replace (length body + 2 - 1)%nat with (S (length body)) by lia.
  assert (Hlast : (body ++ [x; BranchInst ops]) !! S (length body)
                  = Some (BranchInst ops)).
  { rewrite (cons_middle x), app_assoc.
    apply list_lookup_middle. rewrite length_app. simpl. lia. }
  rewrite Hlast. cbn [BB].
  replace (S (length body) - 1)%nat with (length body) by lia.
  rewrite list_lookup_middle by done.
  destruct x as [v| | | | | | |]; try done.
  destruct v; try done. by destruct (Hx pred v1 v2).
Qed.

(** C4, as the code has it.  For a block that ends in an integer comparison
    over operands of at most 64 bits followed by a conditional branch, the
    pass puts the comparison code right before the comparison; when it runs
    it reports exactly one record, with label 0, whose distance is the low
    32 bits of [operand0 XOR operand1].  That distance is 0 exactly when
    the operands agree on their low 32 bits; for operands of at most 32
    bits it is [operand0 XOR operand1] and is 0 exactly when the operands
    are equal.  A comparison of values that are not integers, and a branch
    that does not follow a comparison, get nothing. *)
Theorem C4_branch_distance (id : Z) (body : BasicBlock) (p : Predicate)
    (A0 A1 : Value) (ops : list Value) (pt : nat) (rt : Runtime) (w : N) :
  (1 ≤ length body)%nat -> isConditional ops = true ->
  getType A0 = IntegerTy w -> getType A1 = IntegerTy w -> (w ≤ 64)%N ->
  let icmp := Def (ICmpInst p A0 A1) in
  let a := eval (ssa rt) A0 in
  let b := eval (ssa rt) A1 in
  let distance := wrap 32 (Z.lxor a b) in
  BB (distance_analyzer id (mkIRB (body ++ [icmp; BranchInst ops]) pt))
    = body ++ icmp_code id A0 A1 ++ [icmp; BranchInst ops] ∧
  reports (run rt (icmp_code id A0 A1))
    = reports rt ++ [DistanceReport (wrap32 id) 0 distance] ∧
  (distance = 0 <-> wrap 32 a = wrap 32 b) ∧
  ((w ≤ 32)%N -> distance = Z.lxor a b ∧ (distance = 0 <-> a = b)) ∧
  (∀ B0 B1, isIntegerTy (getType B0) = false -> icmp_code id B0 B1 = []) ∧
  (∀ x, (∀ q B0 B1, x ≠ Def (ICmpInst q B0 B1)) ->
        BB (distance_analyzer id (mkIRB (body ++ [x; BranchInst ops]) pt))
        = body ++ [x; BranchInst ops]).
Proof.
  intros Hlen Hc Ht0 Ht1 Hw. cbn zeta.
  pose proof (eval_range (ssa rt) A0 w Ht0) as Ha.
  pose proof (eval_range (ssa rt) A1 w Ht1) as Hb.
  pose proof (Z_lxor_range w _ _ Ha Hb) as Hx.
  split; [|split; [|split; [|split; [|split]]]].
  - by rewrite distance_analyzer_icmp.
  - rewrite (icmp_code_run id A0 A1 rt w Ht0 Ht1 Hw). cbn [log reports].
    unfold uintcast32. by rewrite (wrap_small w) by done.
  - apply wrap_lxor_zero.
  - intros Hw32.
    assert (Hpow : 2 ^ Z.of_N w ≤ 2 ^ Z.of_N 32).
    { apply Z.pow_le_mono_r; lia. }
    rewrite (wrap_small 32 (Z.lxor _ _)) by lia.
    split; [done|]. apply Z.lxor_eq_0_iff.
  - intros B0 B1 HB. unfold icmp_code. by rewrite HB.
  - intros x Hx'. by rewrite distance_analyzer_branch_other.
Qed.

Lemma C4_branch_distance_witness :
  reports (run sample_runtime
             (icmp_code 7 (Opaque 1 Int32Ty) (ConstantInt 32 4)))
  = [DistanceReport 7 0 14].
Proof.
  destruct (C4_branch_distance 7 [sample_icmp] ICMP_EQ (Opaque 1 Int32Ty)
              (ConstantInt 32 4)
              [Opaque 2 (IntegerTy 1); BasicBlockRef 2; BasicBlockRef 1]
              0 sample_runtime 32 ltac:(simpl; lia) eq_refl eq_refl eq_refl
              ltac:(done)) as (_ & Hrun & _).
  rewrite Hrun. vm_compute. reflexivity.
Defined.

(** C4 as stated fails for operands wider than 32 bits: the 64-bit values
    [2^32] and 0 differ, and the record carries the distance 0. *)
Lemma C4_counterexample :
  let A0 := Opaque 1 Int64Ty in
  let A1 := Opaque 2 Int64Ty in
  reports (run wide_runtime (icmp_code 7 A0 A1)) = [DistanceReport 7 0 0] ∧
  eval (ssa wide_runtime) A0 ≠ eval (ssa wide_runtime) A1.
Proof. split; [vm_compute; reflexivity|vm_compute; discriminate]. Qed.

(** C5, as the code has it.  The counter file is opened with [O_CREAT], so
    an absent file is created empty; whenever fewer than 4 bytes can be
    read, which is the case for a file that was absent, the pass aborts
    with "Short read".  It also aborts when the file cannot be opened and
    when the final write fails.  It goes on only when 4 bytes were read,
    and then starts from the counter they hold. *)
Theorem C5_counter_file (k : Z) (w : World) (M : Module) (r : Z) :
  decide_ratio (AFL_INST_RATIO w) = Done r ->
  let file := default [] (cur_id_file w) in
  let R := instrument_module k w r
             {| CurId := u32_of_bytes (take 4 file); inst_blocks := 0;
                rand_calls := 0 |} M in
  (open_ok w = false ->
   runOnModule k w M = FATAL "Unable to create /tmp/.cur_id") ∧
  (open_ok w = true -> (length file < 4)%nat ->
   runOnModule k w M = FATAL "Short read /tmp/.cur_id") ∧
  (open_ok w = true -> (4 ≤ length file)%nat -> write_ok w = false ->
   runOnModule k w M = FATAL "Short write .cur_id") ∧
  (open_ok w = true -> (4 ≤ length file)%nat -> write_ok w = true ->
   runOnModule k w M = Done (R.2, bytes_of_u32 (CurId R.1) ++ drop 4 file)).
Proof.
  intros Hr file R. unfold runOnModule. rewrite Hr. fold file.
  split; [|split; [|split]].
  - by intros ->.
  - intros -> Hlen. cbn [negb].
    rewrite decide_True; [done|]. rewrite length_take. lia.
  - intros -> Hlen ->. cbn [negb].
    rewrite decide_False by (rewrite length_take; lia).
    by destruct (instrument_module _ _ _ _ _).
  - intros -> Hlen ->. cbn [negb].
    rewrite decide_False by (rewrite length_take; lia).
    fold R. by destruct R.
Qed.

Lemma C5_counter_file_witness :
  runOnModule 16 world_without_file sample_module
  = FATAL "Short read /tmp/.cur_id".
Proof.
  destruct (C5_counter_file 16 world_without_file sample_module 100 eq_refl)
    as (_ & Hshort & _).
  apply Hshort; [reflexivity|simpl; lia].
Defined.

(** C5 as stated fails: when the counter file is absent the pass does not go
    on with the counter 0, it aborts. *)
Lemma C5_counterexample :
  cur_id_file world_without_file = None ∧
  ¬ ∃ out, runOnModule 16 world_without_file sample_module = Done out.
Proof. split; [done|]. intros [out Hout]. vm_compute in Hout. discriminate. Qed.

Section EdgeCoverage.
Variable MAP_SIZE_POW2 : Z.
Hypothesis MAP_SIZE_POW2_range : 0 ≤ MAP_SIZE_POW2 ≤ 31.
Variable w : World.

Lemma MAP_SIZE_bound : 0 < MAP_SIZE MAP_SIZE_POW2 ≤ 2 ^ 31.
Proof.
  rewrite MAP_SIZE_pow2 by lia. split.
  - apply Z.pow_pos_nonneg; lia.
  - apply Z.pow_le_mono_r; lia.
Qed.

(** C6.  In every sampled block the edge coverage code sits at the first
    insertion point.  [Location] is drawn from [[0, MAP_SIZE)]; run with
    a previous location below [MAP_SIZE], the code computes the index
    [PrevLocation XOR Location], which is below [MAP_SIZE], adds 1 modulo
    [2^8] to the byte of the bitmap at that index, changes no other byte,
    and leaves [Location >> 1], again below [MAP_SIZE], in
    [PrevLocation]. *)
Theorem C6_edge_coverage (inst_ratio : Z) (st : PassState) (bb : BasicBlock)
    (rt : Runtime) :
  AFL_R 100 (random w (rand_calls st)) < inst_ratio ->
  let MAP_SIZE := MAP_SIZE MAP_SIZE_POW2 in
  let PrevLocation := globals rt "__afl_prev_loc" in
  let bitmap := globals rt "__afl_area_ptr" in
  0 ≤ PrevLocation < MAP_SIZE ->
  let Location := AFL_R MAP_SIZE (random w (S (rand_calls st))) in
  let idx := Z.lxor PrevLocation Location in
  let p0 := getFirstInsertionPt bb in
  let rt' := run rt (edge_code Location) in
  take (p0 + 8)
       (instrument_block MAP_SIZE_POW2 w inst_ratio st bb).2
    = take p0 bb ++ edge_code Location ∧
  0 ≤ Location < MAP_SIZE ∧
  0 ≤ idx < MAP_SIZE ∧
  (∀ a, memory rt' a =
        if decide (a = bitmap + idx)
        then (memory rt (bitmap + idx) + 1) mod 2 ^ 8 else memory rt a) ∧
  globals rt' "__afl_prev_loc" = Z.shiftr Location 1 ∧
  0 ≤ Z.shiftr Location 1 < MAP_SIZE ∧
  globals rt' "__afl_area_ptr" = bitmap.
Proof.
  intros Hs MS prev bitmap Hprev loc idx p0 rt'.
  pose proof MAP_SIZE_bound as HMS. fold MS in HMS.
  assert (Hloc : 0 ≤ loc < MS) by (apply AFL_R_range; lia).
  assert (Hpow : MS = 2 ^ Z.of_N (Z.to_N MAP_SIZE_POW2)).
  { unfold MS. rewrite MAP_SIZE_pow2 by lia. f_equal. lia. }
  destruct (edge_code_run loc rt ltac:(fold prev; lia) ltac:(lia))
    as (Hmem & Hglob & _).
  split; [by apply instrument_block_edge|]. split; [done|]. split.
  { rewrite Hpow. apply Z_lxor_range; rewrite <- Hpow; done. }
  split; [exact Hmem|]. split; [by rewrite Hglob|]. split.
  - split; [apply Z.shiftr_nonneg; lia|].
    rewrite Z.shiftr_div_pow2 by lia.
    assert (loc / 2 ^ 1 ≤ loc); [|lia].
    apply Z.div_le_upper_bound; lia.
  - by rewrite Hglob.
Qed.

End EdgeCoverage.

Lemma C6_edge_coverage_witness :
  let rt' := run sample_runtime (edge_code 7) in
  take 8 (instrument_block 16 sample_world 100 fresh_state branch_block).2
    = edge_code 7 ∧
  memory rt' 7 = 1 ∧ globals rt' "__afl_prev_loc" = 3.
Proof.
  destruct (C6_edge_coverage 16 ltac:(lia) sample_world 100 fresh_state
              branch_block sample_runtime ltac:(vm_compute; reflexivity)
              ltac:(vm_compute; split; [discriminate|reflexivity]))
    as (Hcode & _ & _ & Hmem & Hprev & _).
  split; [exact Hcode|]. split; [exact (Hmem 7)|exact Hprev].
Defined.

Lemma blocks_all_sampled (k : Z) (w : World) (bbs : list BasicBlock) :
  ∀ st : PassState,
    inst_blocks (for_each (instrument_block k w 100) st bbs).1
    = inst_blocks st + Z.of_nat (length bbs).
Proof.
  induction bbs as [|bb bbs IH]; intros st.
  - simpl. lia.
  - cbn [for_each].
    pose proof (AFL_R_range 100 (random w (rand_calls st)) ltac:(lia)) as Hd.
    rewrite instrument_block_sampled by lia.
    set (st1 := {| CurId := wrap32 (CurId st + 1);
                   inst_blocks := inst_blocks st + 1;
                   rand_calls := S (S (rand_calls st)) |}).
    specialize (IH st1). destruct (for_each _ st1 bbs) as [st2 bs].
    cbn [fst] in *. rewrite IH. unfold st1. cbn [inst_blocks length]. lia.
Qed.

(** ** Reading the ratio *)

Lemma sscanf_u_eq (s : string) :
  sscanf_u s =
  match skip_spaces s with
  | String c s' =>
      if decide (c = "-"%char)
      then (fun n => wrap32 (strtoul true n)) <$> scan_digits None s'
      else if decide (c = "+"%char)
      then (fun n => wrap32 (strtoul false n)) <$> scan_digits None s'
      else (fun n => wrap32 (strtoul false n)) <$> scan_digits None (String c s')
  | EmptyString => None
  end.
Proof.
  unfold sscanf_u. destruct (skip_spaces s) as [|c s']; [done|].
  destruct c as [[] [] [] [] [] [] [] []]; reflexivity.
Qed.

Lemma digit_of_is_digit (c : ascii) :
  digit_of c = if is_digit c then Some (Z.of_nat (nat_of_ascii c) - 48) else None.
Proof.
  unfold digit_of, is_digit. cbn zeta.
  destruct (decide (48 ≤ Z.of_nat (nat_of_ascii c) ∧ Z.of_nat (nat_of_ascii c) ≤ 57)) as [H|H].
  - rewrite bool_decide_eq_true_2; [done|lia].
  - rewrite bool_decide_eq_false_2; [done|lia].
Qed.

Lemma skip_spaces_app (ws s : string) :
  all_chars is_space ws = true -> starts_with is_space s = false ->
  skip_spaces (ws +:+ s) = s.
Proof.
  intros Hws Hs. induction ws as [|c ws IH]; simpl in *.
  - destruct s as [|c s]; [done|]. simpl in *. by rewrite Hs.
  - apply andb_prop in Hws as [Hc Hws]. rewrite Hc. by apply IH.
Qed.

Lemma scan_digits_app (ds rest : string) :
  all_chars is_digit ds = true -> starts_with is_digit rest = false ->
  ∀ acc, scan_digits acc (ds +:+ rest) =
         match ds with
         | EmptyString => acc
         | _ => Some (foldl (fun n c => 10 * n + (Z.of_nat (nat_of_ascii c) - 48))
                        (default 0 acc) (list_ascii_of_string ds))
         end.
Proof.
  intros Hds Hrest. induction ds as [|c ds IH]; intros acc; simpl in *.
  - destruct rest as [|c rest]; [done|]. simpl in *.
    by rewrite digit_of_is_digit, Hrest.
  - apply andb_prop in Hds as [Hc Hds]. rewrite digit_of_is_digit, Hc.
    rewrite (IH Hds). destruct ds; done.
Qed.

Lemma kept_stored (sign : string) (n : Z) :
  wrap32 (strtoul (bool_decide (sign = "-")) n) = kept sign n.
Proof.
  unfold strtoul, kept. case_decide; [done|].
  unfold wrap32, wrap. rewrite Z.mod_mod_divide by (by exists (2 ^ 32)).
  case_bool_decide; [by rewrite decide_True|by rewrite decide_False].
Qed.

Lemma digits_head (ds rest : string) :
  ds ≠ EmptyString -> all_chars is_digit ds = true ->
  ∃ c t, ds +:+ rest = String c t ∧ is_digit c = true.
Proof.
  destruct ds as [|c ds]; [done|]. intros _ [Hc _]%andb_prop.
  by exists c, (ds +:+ rest).
Qed.

Lemma is_digit_chars (c : ascii) :
  is_digit c = true -> is_space c = false ∧ c ≠ "-"%char ∧ c ≠ "+"%char.
Proof.
  intros H. split; [|split; intros ->; vm_compute in H; discriminate].
  unfold is_digit, is_space in *. cbn zeta. apply bool_decide_eq_true in H.
  apply bool_decide_eq_false. lia.
Qed.

Lemma sscanf_u_reads (s sign ds : string) :
  reads s sign ds -> sscanf_u s = Some (kept sign (decimal ds)).
Proof.
  intros (ws & rest & -> & Hws & Hsign & Hne & Hds & Hrest).
  rewrite sscanf_u_eq.
  destruct (digits_head ds rest Hne Hds) as (c & t & Et & Hc).
  destruct (is_digit_chars c Hc) as (Hsp & Hm & Hp).
  pose proof (scan_digits_app ds rest Hds Hrest None) as Hscan.
  assert (Hval : scan_digits None (ds +:+ rest) = Some (decimal ds)).
  { rewrite Hscan. by destruct ds. }
  destruct Hsign as [->|[->| ->]].
  - change (EmptyString +:+ ds +:+ rest) with (ds +:+ rest).
    rewrite skip_spaces_app; [|done|by rewrite Et].
    rewrite Et. cbv beta iota. rewrite decide_False, decide_False by done.
    rewrite <- Et, Hval.
    cbn [fmap option_fmap option_map]. f_equal.
    by rewrite <- kept_stored.
  - rewrite skip_spaces_app by done.
    change ("+" +:+ ds +:+ rest) with (String "+" (ds +:+ rest)).
    cbv beta iota. rewrite decide_False, decide_True by done. rewrite Hval.
    cbn [fmap option_fmap option_map]. f_equal. by rewrite <- kept_stored.
  - rewrite skip_spaces_app by done.
    change ("-" +:+ ds +:+ rest) with (String "-" (ds +:+ rest)).
    cbv beta iota. rewrite decide_True by done. rewrite Hval.
    cbn [fmap option_fmap option_map]. f_equal. by rewrite <- kept_stored.
Qed.

Lemma scan_digits_none (rest : string) :
  starts_with is_digit rest = false -> scan_digits None rest = None.
Proof.
  intros H. destruct rest as [|c rest]; [done|]. simpl in *.
  by rewrite digit_of_is_digit, H.
Qed.

Lemma sscanf_u_no_number (s : string) : no_number s -> sscanf_u s = None.
Proof.
  intros (ws & sign & rest & -> & Hws & Hsign & Hrest).
  rewrite sscanf_u_eq.
  destruct Hsign as [->|[->|(-> & Hsp & Hsg)]].
  - rewrite skip_spaces_app by done.
    change ("+" +:+ rest) with (String "+" rest).
    cbv beta iota. rewrite decide_False, decide_True by done.
    by rewrite scan_digits_none.
  - rewrite skip_spaces_app by done.
    change ("-" +:+ rest) with (String "-" rest).
    cbv beta iota. rewrite decide_True by done. by rewrite scan_digits_none.
  - change (EmptyString +:+ rest) with rest. rewrite skip_spaces_app by done.
    destruct rest as [|c rest]; [done|].
    cbn [starts_with] in Hsg. unfold is_sign in Hsg.
    apply bool_decide_eq_false in Hsg.
    cbv beta iota. rewrite decide_False, decide_False by tauto.
    by rewrite scan_digits_none.
Qed.

Lemma spaces_split (s : string) :
  ∃ ws, s = ws +:+ skip_spaces s ∧ all_chars is_space ws = true ∧
        starts_with is_space (skip_spaces s) = false.
Proof.
  induction s as [|c s (ws & Hs & Hws & Hsk)]; [by exists EmptyString|].
  cbn [skip_spaces]. destruct (is_space c) eqn:Ec.
  - exists (String c ws).
    split; [change (String c s = String c (ws +:+ skip_spaces s)); by f_equal|].
    split; [cbn [all_chars]; by rewrite Ec|done].
  - exists EmptyString. split; [done|]. split; [done|].
    cbn [starts_with]. done.
Qed.

Lemma digits_split (s : string) :
  ∃ ds rest, s = ds +:+ rest ∧ all_chars is_digit ds = true ∧
             starts_with is_digit rest = false.
Proof.
  induction s as [|c s (ds & rest & Hs & Hds & Hrest)].
  - by exists EmptyString, EmptyString.
  - destruct (is_digit c) eqn:Ec.
    + exists (String c ds), rest.
      split; [change (String c s = String c (ds +:+ rest)); by f_equal|].
      split; [cbn [all_chars]; by rewrite Ec|done].
    + exists EmptyString, (String c s). split; [done|]. split; [done|].
      cbn [starts_with]. done.
Qed.

Lemma every_value (s : string) :
  no_number s ∨ ∃ sign ds, reads s sign ds.
Proof.
  destruct (spaces_split s) as (ws & Hs & Hws & Hsk).
  destruct (skip_spaces s) as [|c t] eqn:Et.
  { left. exists ws, EmptyString, EmptyString. split; [done|]. split; [done|].
    split; [|done]. right. right. done. }
  destruct (is_sign c) eqn:Ec.
  - assert (Hsign : String c EmptyString = "+" ∨ String c EmptyString = "-").
    { unfold is_sign in Ec. apply bool_decide_eq_true in Ec.
      destruct Ec as [->| ->]; [by left|by right]. }
    destruct (digits_split t) as (ds & rest & Ht & Hds & Hrest).
    destruct ds as [|d ds].
    + left. exists ws, (String c EmptyString), rest.
      split; [by rewrite Hs, Ht|]. split; [done|]. split; [tauto|done].
    + right. exists (String c EmptyString), (String d ds), ws, rest.
      split; [by rewrite Hs, Ht|]. split; [done|]. split; [tauto|done].
  - destruct (digits_split (String c t)) as (ds & rest & Ht & Hds & Hrest).
    destruct ds as [|d ds].
    + left. exists ws, EmptyString, rest.
      change (String c t = rest) in Ht. subst rest.
      split; [exact Hs|]. split; [done|]. split; [|done].
      right. right. split; [done|]. split; [exact Hsk|exact Ec].
    + right. exists EmptyString, (String d ds), ws, rest.
      split; [by rewrite Hs, Ht|]. split; [done|]. split; [tauto|done].
Qed.

Lemma append_empty (s : string) : s +:+ EmptyString = s.
Proof.
  induction s as [|c s IH]; [done|].
  change (String c (s +:+ EmptyString) = String c s). by rewrite IH.
Qed.

Lemma numeral_reads (s : string) : numeral s -> reads s EmptyString s.
Proof.
  intros [Hne Hds]. exists EmptyString, EmptyString.
  split; [|by repeat split; try tauto].
  change (s = s +:+ EmptyString). by rewrite append_empty.
Qed.

Lemma decimal_nonneg (s : string) :
  all_chars is_digit s = true -> 0 ≤ decimal s.
Proof.
  assert (H : ∀ acc, 0 ≤ acc -> all_chars is_digit s = true ->
            0 ≤ foldl (fun n c => 10 * n + (Z.of_nat (nat_of_ascii c) - 48))
                  acc (list_ascii_of_string s)).
  { induction s as [|c s IH]; intros acc Hacc Hs; [done|].
    cbn [all_chars] in Hs. apply andb_prop in Hs as [Hc Hs].
    cbn [list_ascii_of_string foldl]. apply IH; [|done].
    unfold is_digit in Hc. apply bool_decide_eq_true in Hc. lia. }
  by apply H.
Qed.

Lemma kept_numeral (n : Z) : 0 ≤ n < 2 ^ 32 -> kept EmptyString n = n.
Proof.
  intros Hn. unfold kept. rewrite decide_False by lia.
  rewrite decide_False by done. apply Z.mod_small. lia.
Qed.

Lemma decide_ratio_reads (s sign ds : string) :
  reads s sign ds ->
  decide_ratio (Some s) =
  if decide (1 ≤ kept sign (decimal ds) ≤ 100)
  then Done (kept sign (decimal ds))
  else FATAL "Bad value of AFL_INST_RATIO (must be between 1 and 100)".
Proof.
  intros Hr. unfold decide_ratio. rewrite (sscanf_u_reads s sign ds Hr).
  assert (0 ≤ kept sign (decimal ds)).
  { destruct Hr as (_ & _ & _ & _ & _ & _ & Hds & _).
    pose proof (decimal_nonneg ds Hds). unfold kept.
    repeat case_decide; [lia|apply Z.mod_pos_bound; lia..]. }
  destruct (decide (1 ≤ kept sign (decimal ds) ≤ 100)).
  - rewrite decide_False; [done|lia].
  - rewrite decide_True; [done|lia].
Qed.

(** C7, as the code has it.  Without the environment variable the ratio is
    100.  A value is read as [sscanf] reads it: white space is skipped, a
    sign is taken, and the digits that follow are the number, whatever
    comes after them; the number kept is the low 32 bits of what was read,
    negated after a minus sign, and [2^32 - 1] for a number of [2^64] or
    more.  Every value either has no number at that place or is read in
    this way.  When there is no number, or the number kept is 0 or above
    100, [runOnModule] ends in the fatal error whatever the module, before
    the counter file is opened; when the number kept is between 1 and 100
    it is the ratio.  For a decimal numeral below [2^32] the number kept is
    the number written, so such a value is refused exactly when it is
    outside [[1, 100]].  With a ratio, a block is instrumented when the
    draw from [[0, 100)] is below the ratio and is left as it is when not;
    with ratio 100 every block of the module is counted as
    instrumented. *)
Theorem C7_inst_ratio (k : Z) (w : World) :
  decide_ratio None = Done 100 ∧
  (∀ s M, AFL_INST_RATIO w = Some s ->
     no_number s ∨
     (∃ sign ds, reads s sign ds ∧ ¬ (1 ≤ kept sign (decimal ds) ≤ 100)) ->
     runOnModule k w M
     = FATAL "Bad value of AFL_INST_RATIO (must be between 1 and 100)") ∧
  (∀ s sign ds, reads s sign ds -> 1 ≤ kept sign (decimal ds) ≤ 100 ->
     decide_ratio (Some s) = Done (kept sign (decimal ds))) ∧
  (∀ s, no_number s ∨ ∃ sign ds, reads s sign ds) ∧
  (∀ s, numeral s -> decimal s < 2 ^ 32 ->
     decide_ratio (Some s) =
     if decide (1 ≤ decimal s ≤ 100) then Done (decimal s)
     else FATAL "Bad value of AFL_INST_RATIO (must be between 1 and 100)") ∧
  (∀ inst_ratio st bb,
     let draw := AFL_R 100 (random w (rand_calls st)) in
     let R := instrument_block k w inst_ratio st bb in
     0 ≤ draw < 100 ∧
     (draw < inst_ratio ->
      (length bb < length R.2)%nat ∧ inst_blocks R.1 = inst_blocks st + 1) ∧
     (¬ draw < inst_ratio ->
      R.2 = bb ∧ inst_blocks R.1 = inst_blocks st ∧ CurId R.1 = CurId st)) ∧
  (∀ st M,
     inst_blocks (instrument_module k w 100 st M).1
     = inst_blocks st + Z.of_nat (length (concat M))).
Proof.
  split; [done|]. split; [|split; [|split; [|split; [|split]]]].
  - intros s M Hs Hbad. unfold runOnModule. rewrite Hs.
    destruct Hbad as [Hno|(sign & ds & Hr & Hv)].
    + unfold decide_ratio. by rewrite (sscanf_u_no_number s Hno).
    + rewrite (decide_ratio_reads s sign ds Hr). by rewrite decide_False.
  - intros s sign ds Hr Hv. rewrite (decide_ratio_reads s sign ds Hr).
    by rewrite decide_True.
  - apply every_value.
  - intros s Hnum Hlt. rewrite (decide_ratio_reads s _ s (numeral_reads s Hnum)).
    destruct Hnum as [_ Hds]. pose proof (decimal_nonneg s Hds).
    by rewrite kept_numeral by lia.
  - intros inst_ratio st bb draw R.
    split; [apply AFL_R_range; lia|]. split.
    + intros Hd.
      destruct (instrument_block_perm k w inst_ratio st bb Hd)
        as (code & Hp & _). fold R in Hp.
      apply Permutation_length in Hp.
      split.
      * rewrite Hp. cbn [length]. rewrite !length_app. lia.
      * unfold R. by rewrite instrument_block_sampled.
    + intros Hd. unfold R. rewrite instrument_block_skipped by (fold draw; lia).
      done.
  - intros st M. unfold instrument_module.
    pose proof (for_each_concat (instrument_block k w 100) M st) as Hc.
    pose proof (blocks_all_sampled k w (concat M) st) as Hb.
    rewrite Hc in Hb. exact Hb.
Qed.

Lemma C7_inst_ratio_witness :
  runOnModule 16 world_bad_ratio sample_module
  = FATAL "Bad value of AFL_INST_RATIO (must be between 1 and 100)" ∧
  runOnModule 16 (world_with_ratio "ratio") sample_module
  = FATAL "Bad value of AFL_INST_RATIO (must be between 1 and 100)" ∧
  runOnModule 16 (world_with_ratio "18446744073709551617") sample_module
  = FATAL "Bad value of AFL_INST_RATIO (must be between 1 and 100)" ∧
  decide_ratio (Some " 42%") = Done 42 ∧
  decide_ratio (Some "100.9") = Done 100 ∧
  decide_ratio (Some "-4294967295") = Done 1 ∧
  inst_blocks (instrument_module 16 sample_world 100 fresh_state
                 sample_module).1 = 3.
Proof.
  destruct (C7_inst_ratio 16 world_bad_ratio) as (_ & Hbad & Hok & _).
  destruct (C7_inst_ratio 16 (world_with_ratio "ratio")) as (_ & Hno & _).
  destruct (C7_inst_ratio 16 (world_with_ratio "18446744073709551617"))
    as (_ & Hbig & _).
  destruct (C7_inst_ratio 16 sample_world) as (_ & _ & _ & _ & _ & _ & Hall).
  split; [|split; [|split; [|split; [|split; [|split]]]]].
  - apply (Hbad "0"); [reflexivity|]. right. exists EmptyString, "0".
    split; [|vm_compute; intros [? _]; done].
    exists EmptyString, EmptyString. by repeat split; try tauto.
  - apply (Hno "ratio"); [reflexivity|]. left.
    exists EmptyString, EmptyString, "ratio".
    split; [done|]. split; [done|]. split; [|done]. right. right. done.
  - apply (Hbig "18446744073709551617"); [reflexivity|]. right.
    exists EmptyString, "18446744073709551617".
    split; [|vm_compute; intros [_ H]; by apply H].
    exists EmptyString, EmptyString. by repeat split; try tauto.
  - apply (Hok " 42%" EmptyString "42"); [|vm_compute; split; discriminate].
    exists " ", "%". by repeat split; try tauto.
  - apply (Hok "100.9" EmptyString "100"); [|vm_compute; split; discriminate].
    exists EmptyString, ".9". by repeat split; try tauto.
  - apply (Hok "-4294967295" "-" "4294967295");
      [|vm_compute; split; discriminate].
    exists EmptyString, EmptyString. by repeat split; try tauto.
  - apply (Hall fresh_state sample_module).
Defined.

(** C7 as stated fails: [4294967297] is a number outside [[1, 100]] and
    [7up] is not a number, and with either of them in [AFL_INST_RATIO] the
    pass does not abort; it runs, with the ratios 1 and 7. *)
Lemma C7_counterexample :
  (numeral "4294967297" ∧ ¬ (1 ≤ decimal "4294967297" ≤ 100) ∧
   decide_ratio (Some "4294967297") = Done 1 ∧
   ∃ out, runOnModule 16 (world_with_ratio "4294967297") sample_module
          = Done out) ∧
  (¬ numeral "7up" ∧
   decide_ratio (Some "7up") = Done 7 ∧
   ∃ out, runOnModule 16 (world_with_ratio "7up") sample_module = Done out).
Proof.
  split.
  - split; [by split|]. split; [vm_compute; intros [_ H]; by apply H|].
    split; [reflexivity|]. eexists. vm_compute. reflexivity.
  - split; [intros [_ H]; vm_compute in H; discriminate|].
    split; [reflexivity|]. eexists. vm_compute. reflexivity.
Qed.

(** C8: what the code does with a block of two instructions.  The size test
    of line 176 is made after the eight instructions of the edge coverage
    code have been put into the block, so it holds for every sampled block:
    the two-instruction block [icmp; br] gets a distance record. *)
Theorem C8_small_block_gets_record :
  length small_block = 2%nat ∧
  distance_ids
    (instrument_block 16 sample_world 100 fresh_state small_block).2 = [1] ∧
  (instrument_block 16 sample_world 100 fresh_state small_block).2
  = edge_code 7 ++
    icmp_code 1 (Opaque 1 Int32Ty) (ConstantInt 32 4) ++
    [insert_block 1; sample_icmp; sample_branch].
Proof. split; [done|]. split; vm_compute; reflexivity. Qed.

(** A block that is not sampled is left as it is, whatever its size. *)
Lemma C8_unsampled_block (k : Z) (w : World) (inst_ratio : Z)
    (st : PassState) (bb : BasicBlock) :
  inst_ratio ≤ AFL_R 100 (random w (rand_calls st)) ->
  (instrument_block k w inst_ratio st bb).2 = bb.
Proof. intros Hd. by rewrite instrument_block_skipped. Qed.

(** C9, as the code has it.  The reporter call is created last but with the
    builder of line 134, which is anchored at the first insertion point of
    the block: it follows the edge coverage code.  The distance code is put
    right before the switch or the comparison.  So the reporter call comes
    before the distance code, except when the switch or the comparison is
    itself the instruction at the first insertion point, where it comes
    right after the distance code. *)
Theorem C9_reporter_placement (k : Z) (w : World) (inst_ratio : Z)
    (st : PassState) :
  AFL_R 100 (random w (rand_calls st)) < inst_ratio ->
  let Location := AFL_R (MAP_SIZE k) (random w (S (rand_calls st))) in
  let id := wrap32 (CurId st + 1) in
  let instrumented bb := (instrument_block k w inst_ratio st bb).2 in
  (∀ pre x body ops,
     let bb := pre ++ x :: body ++ [SwitchInst ops] in
     getFirstInsertionPt bb = length pre ->
     instrumented bb =
     pre ++ edge_code Location ++ [insert_block id] ++ x :: body ++
       switch_code id ops ++ [SwitchInst ops]) ∧
  (∀ pre x body p A0 A1 ops,
     let bb := pre ++ x :: body ++ [Def (ICmpInst p A0 A1); BranchInst ops] in
     getFirstInsertionPt bb = length pre -> isConditional ops = true ->
     instrumented bb =
     pre ++ edge_code Location ++ [insert_block id] ++ x :: body ++
       icmp_code id A0 A1 ++ [Def (ICmpInst p A0 A1); BranchInst ops]) ∧
  (∀ pre ops,
     let bb := pre ++ [SwitchInst ops] in
     getFirstInsertionPt bb = length pre ->
     instrumented bb =
     pre ++ edge_code Location ++ switch_code id ops ++
       [insert_block id; SwitchInst ops]) ∧
  (∀ pre p A0 A1 ops,
     let bb := pre ++ [Def (ICmpInst p A0 A1); BranchInst ops] in
     getFirstInsertionPt bb = length pre -> isConditional ops = true ->
     instrumented bb =
     pre ++ edge_code Location ++ icmp_code id A0 A1 ++
       [insert_block id; Def (ICmpInst p A0 A1); BranchInst ops]).
Proof.
  intros Hs. cbn zeta. split; [|split; [|split]].
  - intros. by apply instrument_block_switch.
  - intros. by apply instrument_block_icmp.
  - intros. by apply instrument_block_switch_first.
  - intros. by apply instrument_block_icmp_first.
Qed.

Lemma C9_reporter_placement_witness :
  (instrument_block 16 sample_world 100 fresh_state branch_block).2 =
  edge_code 7 ++ [insert_block 1; Def (Opaque 1 Int32Ty)] ++
  icmp_code 1 (Opaque 1 Int32Ty) (ConstantInt 32 4) ++
  [sample_icmp; sample_branch].
Proof.
  destruct (C9_reporter_placement 16 sample_world 100 fresh_state
              ltac:(vm_compute; reflexivity)) as (_ & Hicmp & _).
  apply (Hicmp [] (Def (Opaque 1 Int32Ty)) [] ICMP_EQ (Opaque 1 Int32Ty)
           (ConstantInt 32 4)
           [Opaque 2 (IntegerTy 1); BasicBlockRef 2; BasicBlockRef 1]
           eq_refl eq_refl).
Defined.

(** C9 as stated fails: in the block [%1 = ...; icmp; br] the reporter call
    is the ninth instruction and the distance record call comes after
    it. *)
Lemma C9_counterexample :
  ¬ reporter_last
      (instrument_block 16 sample_world 100 fresh_state branch_block).2.
Proof.
  intros Hlast.
  specialize (Hlast 8%nat 11%nat (insert_block 1)
    (insert_distance 1 (ConstantInt 32 0)
       (BinaryOperator Xor (Opaque 1 Int32Ty) (ConstantInt 32 4)))
    eq_refl ltac:(by eexists) eq_refl ltac:(by eexists)).
  lia.
Qed.

(** C10.  In the module the pass produces from a module that does not call
    the collector yet, every block either still does not call it (the block
    was not sampled) or has exactly one reporter call, whose identifier is
    the one every call to the collector in the block carries, the distance
    record calls included; and no identifier is in the reporter calls of
    two blocks. *)
Theorem C10_block_id_shared (k : Z) (w : World) (inst_ratio : Z)
    (st : PassState) (M : Module) :
  Forall uninstrumented (concat M) ->
  wrap32 (CurId st) = CurId st ->
  Z.of_nat (length (concat M)) ≤ 2 ^ 32 ->
  let M' := (instrument_module k w inst_ratio st M).2 in
  Forall (fun b => uninstrumented b ∨
                   ∃ id, reporter_ids b = [id] ∧ Forall (tagged id) b)
         (concat M') ∧
  NoDup (module_reporter_ids M').
Proof.
  intros HM Hc Hsize M'.
  destruct (blocks_ids k w inst_ratio (concat M) st HM Hc)
    as (n & Hn & _ & _ & Hids & Hall).
  rewrite instrument_module_blocks in Hids, Hall. cbn [snd] in Hids, Hall.
  split; [exact Hall|].
  unfold module_reporter_ids. fold M' in Hids. rewrite Hids.
  apply ids_from_NoDup. lia.
Qed.

Lemma C10_block_id_shared_witness :
  NoDup (module_reporter_ids
           (instrument_module 16 sample_world 100 fresh_state
              sample_module).2).
Proof.
  apply (C10_block_id_shared 16 sample_world 100 fresh_state sample_module
           ltac:(repeat constructor) eq_refl ltac:(simpl; lia)).
Defined.

(** * Further properties of the pass *)

(** ** The counter file from one run to the next *)

Lemma u32_bytes_roundtrip (x : Z) :
  0 ≤ x < 2 ^ 32 -> u32_of_bytes (bytes_of_u32 x) = x.
Proof.
  intros Hx. unfold bytes_of_u32, u32_of_bytes. cbn [foldr].
  rewrite !wrap_wrap. unfold wrap. change (2 ^ Z.of_N 8) with 256.
  change (2 ^ 8) with 256. change (2 ^ 16) with (256 * 256).
  change (2 ^ 24) with (256 * (256 * 256)).
  rewrite <- !Z.div_div by lia.
  set (q1 := x / 256). set (q2 := q1 / 256). set (q3 := q2 / 256).
  pose proof (Z.div_mod x 256 ltac:(lia)) as H0. fold q1 in H0.
  pose proof (Z.div_mod q1 256 ltac:(lia)) as H1. fold q2 in H1.
  pose proof (Z.div_mod q2 256 ltac:(lia)) as H2. fold q3 in H2.
  pose proof (Z.mod_pos_bound x 256 ltac:(lia)).
  pose proof (Z.mod_pos_bound q1 256 ltac:(lia)).
  pose proof (Z.mod_pos_bound q2 256 ltac:(lia)).
  assert (0 ≤ q3 < 256) by (change (2 ^ 32) with 4294967296 in Hx; lia).
  rewrite (Z.mod_small q3) by lia. lia.
Qed.

(** What the loop does to the state of the pass, whatever the blocks are. *)
Lemma blocks_state (k : Z) (w : World) (r : Z) (bbs : list BasicBlock) :
  ∀ st : PassState,
    let R := for_each (instrument_block k w r) st bbs in
    ∃ n : nat,
      (n ≤ length bbs)%nat ∧
      inst_blocks R.1 = inst_blocks st + Z.of_nat n ∧
      rand_calls R.1 = (rand_calls st + length bbs + n)%nat ∧
      (wrap32 (CurId st) = CurId st ->
       CurId R.1 = wrap32 (CurId st + Z.of_nat n)).
Proof.
  induction bbs as [|bb bbs IH]; intros st; cbn zeta.
  - exists 0%nat. cbn [for_each fst length]. rewrite !Z.add_0_r.
    split; [lia|]. split; [done|]. split; [lia|]. by intros ->.
  - cbn [for_each].
    destruct (decide (r ≤ AFL_R 100 (random w (rand_calls st)))) as [Hs|Hs].
    + rewrite instrument_block_skipped by done.
      destruct (IH {| CurId := CurId st; inst_blocks := inst_blocks st;
                      rand_calls := S (rand_calls st) |})
        as (n & Hn & Hib & Hrc & Hid).
      destruct (for_each _ _ bbs) as [st2 bs].
      cbn [fst CurId inst_blocks rand_calls] in *.
      exists n. split; [simpl; lia|]. split; [done|]. split; [simpl; lia|done].
    + rewrite instrument_block_sampled by lia.
      set (st1 := {| CurId := wrap32 (CurId st + 1);
                     inst_blocks := inst_blocks st + 1;
                     rand_calls := S (S (rand_calls st)) |}).
      destruct (IH st1) as (n & Hn & Hib & Hrc & Hid).
      destruct (for_each _ st1 bbs) as [st2 bs].
      cbn [fst CurId inst_blocks rand_calls st1] in *.
      exists (S n). split; [simpl; lia|]. split; [lia|].
      split; [simpl; lia|]. intros _.
      rewrite Hid by (apply wrap32_small, wrap_range).
      rewrite wrap32_idemp_add. f_equal. lia.
Qed.

Lemma runOnModule_done (k : Z) (w : World) (M : Module) (r : Z)
    (file : list Z) :
  decide_ratio (AFL_INST_RATIO w) = Done r ->
  open_ok w = true -> write_ok w = true ->
  cur_id_file w = Some file -> (4 ≤ length file)%nat ->
  let R := instrument_module k w r
             {| CurId := u32_of_bytes (take 4 file); inst_blocks := 0;
                rand_calls := 0 |} M in
  runOnModule k w M = Done (R.2, bytes_of_u32 (CurId R.1) ++ drop 4 file).
Proof.
  intros Hr Hopen Hwrite Hfile Hlen R.
  unfold runOnModule. rewrite Hr, Hopen, Hwrite, Hfile.
  cbn [negb default from_option id].
  rewrite decide_False by (rewrite length_take; lia).
  fold R. by destruct R.
Qed.

Lemma prior_range (file : list Z) :
  (4 ≤ length file)%nat -> 0 ≤ u32_of_bytes (take 4 file) < 2 ^ 32.
Proof.
  intros Hlen. pose proof (u32_of_bytes_range (take 4 file)) as Hb.
  rewrite length_take in Hb.
  by replace (4 `min` length file)%nat with 4%nat in Hb by lia.
Qed.

Lemma final_counter (k : Z) (w : World) (M : Module) (r : Z) (prior : Z) :
  0 ≤ prior < 2 ^ 32 ->
  let R := instrument_module k w r
             {| CurId := prior; inst_blocks := 0; rand_calls := 0 |} M in
  CurId R.1 = wrap32 (prior + inst_blocks R.1) ∧ 0 ≤ inst_blocks R.1.
Proof.
  intros Hp R.
  destruct (blocks_state k w r (concat M)
              {| CurId := prior; inst_blocks := 0; rand_calls := 0 |})
    as (n & _ & Hib & _ & Hid).
  rewrite instrument_module_blocks in Hib, Hid. fold R in Hib, Hid.
  cbn [fst CurId inst_blocks] in Hib, Hid.
  rewrite Hid by (by apply wrap32_small). rewrite Hib. split; [done|lia].
Qed.

(** X1.  After a run that succeeds, the counter file has the length it had,
    its bytes from the fifth on are untouched, and its first four bytes
    read back as the counter the run ended with, which is the counter it
    read plus the number of blocks it instrumented. *)
Theorem counter_file_roundtrip (k : Z) (w : World) (M : Module) (r : Z)
    (file : list Z) :
  decide_ratio (AFL_INST_RATIO w) = Done r ->
  open_ok w = true -> write_ok w = true ->
  cur_id_file w = Some file -> (4 ≤ length file)%nat ->
  let prior := u32_of_bytes (take 4 file) in
  let R := instrument_module k w r
             {| CurId := prior; inst_blocks := 0; rand_calls := 0 |} M in
  ∃ file',
    runOnModule k w M = Done (R.2, file') ∧
    length file' = length file ∧
    drop 4 file' = drop 4 file ∧
    u32_of_bytes (take 4 file') = CurId R.1 ∧
    CurId R.1 = wrap32 (prior + inst_blocks R.1).
Proof.
  intros Hr Hopen Hwrite Hfile Hlen prior R.
  destruct (final_counter k w M r prior (prior_range file Hlen)) as [Hid Hib].
  fold R in Hid, Hib.
  exists (bytes_of_u32 (CurId R.1) ++ drop 4 file).
  split; [by apply runOnModule_done|]. split; [|split; [|split]].
  - rewrite length_app, length_drop. simpl. lia.
  - by rewrite (drop_app_length' (bytes_of_u32 _)).
  - rewrite (take_app_length' (bytes_of_u32 _)) by done.
    apply u32_bytes_roundtrip. rewrite Hid. apply (wrap_range 32).
  - done.
Qed.

Lemma counter_file_roundtrip_witness :
  ∃ file', runOnModule 16 sample_world sample_module
           = Done ((instrument_module 16 sample_world 100
                      {| CurId := 5; inst_blocks := 0; rand_calls := 0 |}
                      sample_module).2, file') ∧
           u32_of_bytes (take 4 file') = 8.
Proof.
  destruct (counter_file_roundtrip 16 sample_world sample_module 100
              [5; 0; 0; 0] eq_refl eq_refl eq_refl eq_refl
              ltac:(simpl; lia)) as (file' & Hrun & _ & _ & Hread & Hid).
  exists file'. split; [exact Hrun|]. rewrite Hread, Hid. reflexivity.
Defined.

Lemma ids_from_wrap (c : Z) (n : nat) : ids_from (wrap32 c) n = ids_from c n.
Proof.
  unfold ids_from. apply list_fmap_ext. intros _ j _.
  apply wrap32_idemp_add.
Qed.

Lemma ids_from_app (n1 n2 : nat) :
  ∀ c, ids_from c (n1 + n2)
       = ids_from c n1 ++ ids_from (wrap32 (c + Z.of_nat n1)) n2.
Proof.
  induction n1 as [|n1 IH]; intros c.
  - cbn [Nat.add]. rewrite Z.add_0_r, ids_from_wrap. done.
  - cbn [Nat.add]. rewrite !ids_from_S, IH. cbn [app]. do 2 f_equal.
    rewrite wrap32_idemp_add. do 2 f_equal. lia.
Qed.

Lemma module_ids (k : Z) (w : World) (r : Z) (M : Module) (prior : Z) :
  Forall uninstrumented (concat M) -> 0 ≤ prior < 2 ^ 32 ->
  let R := instrument_module k w r
             {| CurId := prior; inst_blocks := 0; rand_calls := 0 |} M in
  module_reporter_ids R.2 = ids_from prior (Z.to_nat (inst_blocks R.1)).
Proof.
  intros HM Hp R.
  destruct (blocks_ids k w r (concat M)
              {| CurId := prior; inst_blocks := 0; rand_calls := 0 |} HM)
    as (n & _ & Hib & _ & Hids & _).
  { by apply wrap32_small. }
  rewrite instrument_module_blocks in Hib, Hids. fold R in Hib, Hids.
  cbn [fst snd CurId inst_blocks] in Hib, Hids.
  unfold module_reporter_ids. rewrite Hids, Hib. f_equal. lia.
Qed.

(** X2.  Two runs of the pass, the second reading the counter file the first
    wrote: the second starts from the counter the first ended with, and the
    identifiers of the reporter calls of the two modules, taken together,
    are [prior + 1], ..., [prior + n1 + n2]: two ranges that follow each
    other, without a repeated identifier while the counter does not
    wrap. *)
Theorem consecutive_runs (k : Z) (w1 w2 : World) (M1 M2 : Module)
    (r1 r2 : Z) (file : list Z) :
  decide_ratio (AFL_INST_RATIO w1) = Done r1 ->
  open_ok w1 = true -> write_ok w1 = true ->
  cur_id_file w1 = Some file -> (4 ≤ length file)%nat ->
  Forall uninstrumented (concat M1) ->
  decide_ratio (AFL_INST_RATIO w2) = Done r2 ->
  open_ok w2 = true -> write_ok w2 = true ->
  Forall uninstrumented (concat M2) ->
  let prior := u32_of_bytes (take 4 file) in
  let R1 := instrument_module k w1 r1
              {| CurId := prior; inst_blocks := 0; rand_calls := 0 |} M1 in
  let n1 := Z.to_nat (inst_blocks R1.1) in
  let file1 := bytes_of_u32 (wrap32 (prior + Z.of_nat n1)) ++ drop 4 file in
  cur_id_file w2 = Some file1 ->
  let R2 := instrument_module k w2 r2
              {| CurId := wrap32 (prior + Z.of_nat n1); inst_blocks := 0;
                 rand_calls := 0 |} M2 in
  let n2 := Z.to_nat (inst_blocks R2.1) in
  runOnModule k w1 M1 = Done (R1.2, file1) ∧
  runOnModule k w2 M2 =
    Done (R2.2, bytes_of_u32 (wrap32 (prior + Z.of_nat (n1 + n2)))
                ++ drop 4 file) ∧
  module_reporter_ids R1.2 ++ module_reporter_ids R2.2
    = ids_from prior (n1 + n2) ∧
  (prior + Z.of_nat (n1 + n2) < 2 ^ 32 ->
   NoDup (module_reporter_ids R1.2 ++ module_reporter_ids R2.2)).
Proof.
  intros Hr1 Ho1 Hw1 Hf1 Hlen HM1 Hr2 Ho2 Hw2 HM2 prior R1 n1 file1 Hf2 R2 n2.
  pose proof (prior_range file Hlen) as Hp. fold prior in Hp.
  destruct (final_counter k w1 M1 r1 prior Hp) as [Hid1 Hib1].
  fold R1 in Hid1, Hib1.
  assert (Hc1 : CurId R1.1 = wrap32 (prior + Z.of_nat n1)).
  { rewrite Hid1. unfold n1. f_equal. lia. }
  assert (Hp1 : 0 ≤ wrap32 (prior + Z.of_nat n1) < 2 ^ 32)
    by apply (wrap_range 32).
  destruct (final_counter k w2 M2 r2 _ Hp1) as [Hid2 Hib2].
  fold R2 in Hid2, Hib2.
  assert (Hlen1 : (4 ≤ length file1)%nat).
  { unfold file1. rewrite length_app. simpl. lia. }
  assert (Hread : u32_of_bytes (take 4 file1) = wrap32 (prior + Z.of_nat n1)).
  { unfold file1. rewrite (take_app_length' (bytes_of_u32 _)) by done.
    by apply u32_bytes_roundtrip. }
  assert (Hm1 : module_reporter_ids R1.2 = ids_from prior n1)
    by apply (module_ids k w1 r1 M1 prior HM1 Hp).
  assert (Hm2 : module_reporter_ids R2.2
                = ids_from (wrap32 (prior + Z.of_nat n1)) n2)
    by apply (module_ids k w2 r2 M2 _ HM2 Hp1).
  split; [|split; [|split]].
  - rewrite (runOnModule_done k w1 M1 r1 file Hr1 Ho1 Hw1 Hf1 Hlen).
    fold prior. fold R1. by rewrite Hc1.
  - rewrite (runOnModule_done k w2 M2 r2 file1 Hr2 Ho2 Hw2 Hf2 Hlen1).
    rewrite Hread. fold R2. rewrite Hid2, wrap32_idemp_add.
    replace (prior + Z.of_nat n1 + inst_blocks R2.1)
      with (prior + Z.of_nat (n1 + n2)) by (unfold n2; lia).
    unfold file1. by rewrite (drop_app_length' (bytes_of_u32 _)).
  - by rewrite ids_from_app, Hm1, Hm2.
  - intros Hsmall. rewrite Hm1, Hm2, <- ids_from_app.
    apply ids_from_NoDup. lia.
Qed.

Lemma consecutive_runs_witness :
  let M' := (instrument_module 16 sample_world 100
               {| CurId := 5; inst_blocks := 0; rand_calls := 0 |}
               sample_module).2 in
  let M'' := (instrument_module 16 (with_counter_file sample_world [8; 0; 0; 0])
                100 {| CurId := 8; inst_blocks := 0; rand_calls := 0 |}
                sample_module).2 in
  module_reporter_ids M' ++ module_reporter_ids M'' = [6; 7; 8; 9; 10; 11].
Proof.
  destruct (consecutive_runs 16 sample_world
              (with_counter_file sample_world [8; 0; 0; 0])
              sample_module sample_module 100 100 [5; 0; 0; 0]
              eq_refl eq_refl eq_refl eq_refl ltac:(simpl; lia)
              ltac:(repeat constructor) eq_refl eq_refl eq_refl
              ltac:(repeat constructor) eq_refl)
    as (_ & _ & Hids & _).
  exact Hids.
Defined.

(** ** What the pass leaves as it is *)

Lemma sublist_inserted {A} (p : nat) (code l : list A) :
  l `sublist_of` take p l ++ code ++ drop p l.
Proof.
  rewrite <- (take_drop p l) at 1.
  apply sublist_app; [done|]. by apply sublist_inserts_l.
Qed.

Lemma for_each_Forall2 {S A B} (P : A -> B -> Prop) (f : S -> A -> S * B)
    (l : list A) :
  (∀ s a, P a (f s a).2) -> ∀ s, Forall2 P l (for_each f s l).2.
Proof.
  intros Hf. induction l as [|a l IH]; intros s; [constructor|].
  cbn [for_each]. pose proof (Hf s a) as Ha. destruct (f s a) as [s1 b].
  specialize (IH s1). destruct (for_each f s1 l) as [s2 bs].
  by constructor.
Qed.

Lemma instrument_block_sublist (k : Z) (w : World) (r : Z) (st : PassState)
    (bb : BasicBlock) :
  bb `sublist_of` (instrument_block k w r st bb).2.
Proof.
  destruct (decide (r ≤ AFL_R 100 (random w (rand_calls st)))) as [Hs|Hs].
  { by rewrite instrument_block_skipped. }
  rewrite instrument_block_sampled by lia. cbn [snd].
  set (p0 := getFirstInsertionPt bb).
  set (blk := take p0 bb ++ edge_code _ ++ drop p0 bb).
  destruct (distance_analyzer_shape (wrap32 (CurId st + 1)) blk (p0 + 8))
    as (pos & code & Hpos & -> & _).
  rewrite InsertBefore_spec by done. unfold Insert. cbn [BB InsertPt].
  etrans; [apply (sublist_inserted p0 (edge_code
             (AFL_R (MAP_SIZE k) (random w (S (rand_calls st))))))|].
  fold blk. etrans; [apply (sublist_inserted pos code)|].
  apply (sublist_inserted _ [_]).
Qed.

Lemma module_sublists (k : Z) (w : World) (r : Z) (st : PassState)
    (M : Module) :
  Forall2 (Forall2 (fun bb out => bb `sublist_of` out)) M
          (instrument_module k w r st M).2.
Proof.
  unfold instrument_module. revert st.
  apply for_each_Forall2. intros s F. revert s.
  apply for_each_Forall2. intros s bb. apply instrument_block_sublist.
Qed.

(** X3.  The pass takes no instruction of the program away and moves none:
    block [j] of function body [i] is still block [j] of body [i] after the
    pass, and it still holds its own instructions, none missing and in the
    order they had; what the pass inserted lies between them. *)
Theorem original_instructions_kept (k : Z) (w : World) (r : Z)
    (st : PassState) (M : Module) (i j : nat) (F : Function)
    (bb : BasicBlock) :
  M !! i = Some F -> F !! j = Some bb ->
  ∃ (F' : Function) (out : BasicBlock),
    (instrument_module k w r st M).2 !! i = Some F' ∧ F' !! j = Some out ∧
    bb `sublist_of` out.
Proof.
  intros HF Hbb.
  destruct (Forall2_lookup_l _ _ _ _ _ (module_sublists k w r st M) HF)
    as (F' & HF' & Hblocks).
  destruct (Forall2_lookup_l _ _ _ _ _ Hblocks Hbb) as (out & Hout & Hsub).
  by exists F', out.
Qed.

Lemma original_instructions_kept_witness :
  ∃ (F' : Function) (out : BasicBlock),
    (instrument_module 16 sample_world 100 fresh_state sample_module).2
      !! 1%nat = Some F' ∧
    F' !! 0%nat = Some out ∧ switch_block `sublist_of` out.
Proof.
  apply (original_instructions_kept 16 sample_world 100 fresh_state
           sample_module 1 0 [switch_block] switch_block eq_refl eq_refl).
Defined.

Lemma last_inserted {A} (p : nat) (code l : list A) :
  (p < length l)%nat -> last (take p l ++ code ++ drop p l) = last l.
Proof.
  intros Hp. rewrite <- (take_drop p l) at 3. rewrite app_assoc, !last_app.
  destruct (last (drop p l)) eqn:E; [done|].
  apply last_None in E. apply (f_equal length) in E.
  rewrite length_drop in E. simpl in E. lia.
Qed.

Lemma last_inserted_one {A} (p : nat) (x : A) (l : list A) :
  (p < length l)%nat -> last (take p l ++ x :: drop p l) = last l.
Proof. apply (last_inserted p [x] l). Qed.

(** X4.  The instruction that ends a block still ends it after the pass:
    whenever the block has an instruction at its first insertion point, the
    last instruction of the instrumented block is the last instruction of
    the block. *)
Theorem terminator_stays_last (k : Z) (w : World) (r : Z) (st : PassState)
    (bb : BasicBlock) :
  (getFirstInsertionPt bb < length bb)%nat ->
  last (instrument_block k w r st bb).2 = last bb.
Proof.
  intros Hp0.
  destruct (decide (r ≤ AFL_R 100 (random w (rand_calls st)))) as [Hs|Hs].
  { by rewrite instrument_block_skipped. }
  rewrite instrument_block_sampled by lia. cbn [snd].
  set (p0 := getFirstInsertionPt bb) in *.
  set (loc := AFL_R (MAP_SIZE k) (random w (S (rand_calls st)))).
  set (blk := take p0 bb ++ edge_code loc ++ drop p0 bb).
  assert (Hblk : length blk = (length bb + 8)%nat).
  { unfold blk. rewrite !length_app, length_take, length_drop,
      edge_code_length. lia. }
  assert (Hlast : last blk = last bb) by (by apply last_inserted).
  destruct (distance_analyzer_shape (wrap32 (CurId st + 1)) blk (p0 + 8))
    as (pos & code & Hpos & -> & Hcode).
  assert (Hcase : code = [] ∨ (pos < length blk)%nat).
  { destruct Hcode as [?|[(ops & _ & ? & _)|(? & ? & ? & ? & _ & _ & _ & ? & _)]];
      [by left|right; lia..]. }
  destruct Hcase as [->|Hlt].
  - rewrite InsertBefore_nil. unfold Insert. cbn [BB InsertPt].
    rewrite last_inserted_one by lia. done.
  - rewrite InsertBefore_spec by done. unfold Insert. cbn [BB InsertPt].
    rewrite last_inserted_one.
    + by rewrite last_inserted.
    + rewrite !length_app, length_take, length_drop. case_decide; lia.
Qed.

Lemma terminator_stays_last_witness :
  last (instrument_block 16 sample_world 100 fresh_state switch_block).2
  = Some (SwitchInst sample_switch).
Proof.
  apply (terminator_stays_last 16 sample_world 100 fresh_state switch_block).
  vm_compute. lia.
Defined.

(** ** Blocks that get no distance code *)

Lemma distance_analyzer_none (id : Z) (blk : BasicBlock) (pt : nat) :
  (∀ ops, last blk ≠ Some (SwitchInst ops)) ->
  (∀ ops, last blk = Some (BranchInst ops) -> isConditional ops = false) ->
  distance_analyzer id (mkIRB blk pt) = mkIRB blk pt.
Proof.
  intros Hsw Hbr. unfold distance_analyzer. cbn [BB].
  case_decide; [|done]. rewrite last_lookup, <- Nat.sub_1_r in Hsw, Hbr.
  destruct (blk !! (length blk - 1)%nat) as [[v|v q|f args|ops|ops|i t|i|i]|];
    cbn [BB]; try (repeat case_match; done).
  - rewrite (Hbr ops eq_refl). repeat case_match; done.
  - by destruct (Hsw ops).
Qed.

(** X5.  A sampled block that ends neither in a switch nor in a conditional
    branch (it returns, branches unconditionally, is unreachable, ...) gets
    exactly nine instructions, all at its first insertion point: the edge
    coverage code and then the reporter call.  The rest of the block is as
    it was. *)
Theorem plain_block_instrumentation (k : Z) (w : World) (inst_ratio : Z)
    (st : PassState) (bb : BasicBlock) :
  AFL_R 100 (random w (rand_calls st)) < inst_ratio ->
  (∀ ops, last bb ≠ Some (SwitchInst ops)) ->
  (∀ ops, last bb = Some (BranchInst ops) -> isConditional ops = false) ->
  let p0 := getFirstInsertionPt bb in
  let Location := AFL_R (MAP_SIZE k) (random w (S (rand_calls st))) in
  (instrument_block k w inst_ratio st bb).2 =
  take p0 bb ++ edge_code Location ++
  insert_block (wrap32 (CurId st + 1)) :: drop p0 bb.
Proof.
  intros Hs Hsw Hbr p0 loc. rewrite instrument_block_sampled by done.
  cbn [snd]. fold p0 loc.
  pose proof (getFirstInsertionPt_le bb) as Hp0. fold p0 in Hp0.
  set (blk := take p0 bb ++ edge_code loc ++ drop p0 bb).
  assert (Hlast : last blk = last bb ∨
                  last blk = Some (StoreInst (ConstantInt 32 (Z.shiftr loc 1))
                                             AFLPrevLoc)).
  { destruct (decide (p0 < length bb)%nat) as [Hlt|Hge].
    - left. by apply last_inserted.
    - right. unfold blk. rewrite drop_ge by lia.
      rewrite app_nil_r, last_app. by rewrite edge_code_eq. }
  rewrite distance_analyzer_none.
  - unfold Insert. cbn [BB InsertPt]. unfold blk. rewrite app_assoc.
    rewrite take_app_length', drop_app_length'
      by (rewrite length_app, length_take, edge_code_length; lia).
    by rewrite <- app_assoc.
  - intros ops. destruct Hlast as [-> | ->]; [apply Hsw|done].
  - intros ops. destruct Hlast as [-> | ->]; [apply Hbr|done].
Qed.

Lemma plain_block_instrumentation_witness :
  (instrument_block 16 sample_world 100 fresh_state
     [Def (Opaque 1 Int32Ty); OtherInst 0]).2 =
  edge_code 7 ++ [insert_block 1; Def (Opaque 1 Int32Ty); OtherInst 0].
Proof.
  apply (plain_block_instrumentation 16 sample_world 100 fresh_state
           [Def (Opaque 1 Int32Ty); OtherInst 0]
           ltac:(vm_compute; reflexivity) ltac:(done) ltac:(done)).
Defined.

(** X6.  The pass calls [random()] once for every block and once more for
    every block it instruments, and it instruments at most as many blocks
    as the module has: after the loop the number of calls has grown by the
    number of blocks plus the number of instrumented blocks. *)
Theorem random_draws (k : Z) (w : World) (r : Z) (st : PassState)
    (M : Module) :
  let R := instrument_module k w r st M in
  ∃ sampled : nat,
    (sampled ≤ length (concat M))%nat ∧
    inst_blocks R.1 = inst_blocks st + Z.of_nat sampled ∧
    rand_calls R.1 = (rand_calls st + length (concat M) + sampled)%nat.
Proof.
  intros R.
  destruct (blocks_state k w r (concat M) st) as (n & Hn & Hib & Hrc & _).
  rewrite instrument_module_blocks in Hib, Hrc. exists n. by repeat split.
Qed.

(** ** The labels as a numbering of the destinations *)

Section Numbering.
Context {K : Type} `{EqDecision K}.

Lemma index_of_lookup (k : K) (l : list K) (p : nat) :
  index_of k l = Some p -> l !! p = Some k.
Proof.
  revert p; induction l as [|y l IH]; intros p; simpl; [done|].
  destruct (decide (k = y)) as [->|]; [by intros [= <-]|].
  destruct (index_of k l) as [q|]; simpl; [|done].
  intros [= <-]. by apply IH.
Qed.

Lemma index_of_None (k : K) (l : list K) : index_of k l = None <-> k ∉ l.
Proof.
  induction l as [|y l IH]; simpl.
  - split; [intros _; apply not_elem_of_nil|done].
  - rewrite not_elem_of_cons. destruct (decide (k = y)) as [->|Hne].
    + split; [done|]. by intros [? _].
    + destruct (index_of k l); simpl.
      * split; [done|]. intros [_ Hl]. by apply IH in Hl.
      * split; [|done]. intros _. split; [done|]. by apply IH.
Qed.

Lemma index_of_NoDup (k : K) (l : list K) (p : nat) :
  NoDup l -> l !! p = Some k -> index_of k l = Some p.
Proof.
  intros Hnd Hp. destruct (index_of k l) as [q|] eqn:E.
  - apply index_of_lookup in E. f_equal.
    by apply (NoDup_lookup l q p k).
  - apply index_of_None in E. by apply list_elem_of_lookup_2 in Hp.
Qed.

Lemma elem_of_see (seen : list K) (k x : K) :
  x ∈ see seen k <-> x ∈ seen ∨ x = k.
Proof.
  unfold see. destruct (index_of k seen) as [p|] eqn:E.
  - split; [by left|]. intros [?| ->]; [done|].
    apply index_of_lookup in E. by apply list_elem_of_lookup_2 in E.
  - rewrite elem_of_app, list_elem_of_singleton. done.
Qed.

Lemma see_NoDup (seen : list K) (k : K) : NoDup seen -> NoDup (see seen k).
Proof.
  intros Hnd. unfold see. destruct (index_of k seen) eqn:E; [done|].
  apply index_of_None in E. apply NoDup_app. split; [done|]. split.
  - intros x Hx ->%list_elem_of_singleton. done.
  - apply NoDup_singleton.
Qed.

Lemma foldl_see_NoDup (ks seen : list K) :
  NoDup seen -> NoDup (foldl see seen ks).
Proof.
  revert seen; induction ks as [|k ks IH]; intros seen Hnd; [done|].
  simpl. by apply IH, see_NoDup.
Qed.

Lemma elem_of_foldl_see (ks seen : list K) (x : K) :
  x ∈ foldl see seen ks <-> x ∈ seen ∨ x ∈ ks.
Proof.
  revert seen; induction ks as [|k ks IH]; intros seen; simpl.
  - split; [by left|]. intros [?|Hx]; [done|]. by apply not_elem_of_nil in Hx.
  - rewrite IH, elem_of_see, elem_of_cons. tauto.
Qed.

Lemma seen_all_length (ks : list K) :
  length (foldl see [] ks) = length (remove_dups ks).
Proof.
  apply Permutation_length, NoDup_Permutation.
  - apply foldl_see_NoDup, NoDup_nil_2.
  - apply NoDup_remove_dups.
  - intros x. rewrite elem_of_foldl_see, elem_of_remove_dups.
    split; [|by right]. intros [Hx|?]; [|done]. by apply not_elem_of_nil in Hx.
Qed.

Lemma label_lookup (ks : list K) (i : nat) (a : K) :
  ks !! i = Some a ->
  first_occurrence_labels ks !!! i = lab (foldl see [] ks) a ∧
  ∃ p, index_of a (foldl see [] ks) = Some p.
Proof.
  intros Hi. unfold first_occurrence_labels. rewrite label_pass_lab. split.
  - apply list_lookup_total_correct. by rewrite list_lookup_fmap, Hi.
  - destruct (index_of a (foldl see [] ks)) as [p|] eqn:E; [by exists p|].
    apply index_of_None in E. destruct E.
    apply elem_of_foldl_see. right. by apply list_elem_of_lookup_2 in Hi.
Qed.

Lemma labels_injective (ks : list K) (i j : nat) (a b : K) :
  ks !! i = Some a -> ks !! j = Some b ->
  first_occurrence_labels ks !!! i = first_occurrence_labels ks !!! j
  <-> a = b.
Proof.
  intros Hi Hj.
  destruct (label_lookup ks i a Hi) as (-> & p & Hp).
  destruct (label_lookup ks j b Hj) as (-> & q & Hq).
  split; [|by intros ->]. intros Heq. unfold lab in Heq.
  rewrite Hp, Hq in Heq.
  assert (p = q) as -> by lia.
  apply index_of_lookup in Hp, Hq. congruence.
Qed.

Lemma labels_compact (ks : list K) :
  let n := length (remove_dups ks) in
  Forall (fun l => 1 ≤ l ≤ Z.of_nat n) (first_occurrence_labels ks) ∧
  ∀ l, 1 ≤ l ≤ Z.of_nat n -> l ∈ first_occurrence_labels ks.
Proof.
  intros n. unfold n. rewrite <- seen_all_length. split.
  - apply Forall_lookup. intros i l Hl.
    assert (Hi : (i < length ks)%nat).
    { apply lookup_lt_Some in Hl. unfold first_occurrence_labels in Hl.
      by rewrite label_pass_length in Hl. }
    apply list_lookup_total_correct in Hl. subst l.
    destruct (lookup_lt_is_Some_2 ks i Hi) as [a Ha].
    destruct (label_lookup ks i a Ha) as (Hlab & p & Hp).
    rewrite Hlab. unfold lab. rewrite Hp. apply index_of_lt in Hp. lia.
  - intros l Hl. set (seen := foldl see [] ks) in *.
    destruct (lookup_lt_is_Some_2 seen (Z.to_nat (l - 1)) ltac:(lia))
      as [a Ha].
    assert (Hin : a ∈ ks).
    { apply list_elem_of_lookup_2 in Ha. apply elem_of_foldl_see in Ha.
      destruct Ha as [Ha|?]; [|done]. by apply not_elem_of_nil in Ha. }
    apply list_elem_of_lookup_1 in Hin as [i Hi].
    destruct (label_lookup ks i a Hi) as (Hlab & _). fold seen in Hlab.
    apply (index_of_NoDup a seen) in Ha;
      [|apply foldl_see_NoDup, NoDup_nil_2].
    unfold lab in Hlab. rewrite Ha in Hlab.
    replace l with (first_occurrence_labels ks !!! i) by (rewrite Hlab; lia).
    apply list_elem_of_lookup_total_2.
    unfold first_occurrence_labels. rewrite label_pass_length.
    by apply lookup_lt_Some in Hi.
Qed.

End Numbering.

(** X7.  Two targets of a switch, the default target or the target of a
    case, have the same label exactly when they are the same block. *)
Theorem same_label_same_destination (Cond d : Value)
    (cs : list (Value * Value)) (i j : nat) (a b : Value) :
  Z.of_nat (length cs) < 2 ^ 32 - 2 ->
  destinations d cs !! i = Some a -> destinations d cs !! j = Some b ->
  let Labels := compute_labels (mkSwitch Cond d cs) in
  Labels !!! i = Labels !!! j <-> a = b.
Proof.
  intros Hn Hi Hj Labels. unfold Labels.
  rewrite compute_labels_mkSwitch by done. by apply labels_injective.
Qed.

Lemma same_label_same_destination_witness :
  compute_labels sample_switch !!! 1%nat
  = compute_labels sample_switch !!! 2%nat
  <-> BasicBlockRef 1 = BasicBlockRef 2.
Proof.
  apply (same_label_same_destination (Opaque 0 Int32Ty) (BasicBlockRef 0)
           [(ConstantInt 32 10, BasicBlockRef 1);
            (ConstantInt 32 20, BasicBlockRef 2);
            (ConstantInt 32 30, BasicBlockRef 3)] 1 2
           (BasicBlockRef 1) (BasicBlockRef 2) ltac:(done) eq_refl eq_refl).
Defined.

(** X8.  The labels of a switch are the numbers from 1 to the number of
    distinct blocks among its targets, the default target included: every
    label lies in that range and every number of the range is the label of
    a target. *)
Theorem labels_are_compact (Cond d : Value) (cs : list (Value * Value)) :
  Z.of_nat (length cs) < 2 ^ 32 - 2 ->
  let Labels := compute_labels (mkSwitch Cond d cs) in
  let distinct := Z.of_nat (length (remove_dups (destinations d cs))) in
  Forall (fun l => 1 ≤ l ≤ distinct) Labels ∧
  ∀ l, 1 ≤ l ≤ distinct -> l ∈ Labels.
Proof.
  intros Hn Labels distinct. unfold Labels.
  rewrite compute_labels_mkSwitch by done. apply labels_compact.
Qed.

Lemma labels_are_compact_witness :
  Forall (fun l => 1 ≤ l ≤ 4) (compute_labels sample_switch).
Proof.
  apply (labels_are_compact (Opaque 0 Int32Ty) (BasicBlockRef 0)
           [(ConstantInt 32 10, BasicBlockRef 1);
            (ConstantInt 32 20, BasicBlockRef 2);
            (ConstantInt 32 30, BasicBlockRef 3)] ltac:(done)).
Defined.

(** ** One block after another *)

(** X10.  When the edge coverage code of a block with location [A] runs and
    then that of a block with location [B], the second one counts the edge
    in the byte of the bitmap at index [(A >> 1) XOR B], which is below
    [MAP_SIZE]; the first one has counted its own edge at
    [PrevLocation XOR A]; no other byte changes, and [PrevLocation] ends
    as [B >> 1]. *)
Theorem edge_is_recorded (k : Z) (A B : Z) (rt : Runtime) :
  0 ≤ k ≤ 31 ->
  let PrevLocation := globals rt "__afl_prev_loc" in
  let bitmap := globals rt "__afl_area_ptr" in
  0 ≤ PrevLocation < MAP_SIZE k ->
  0 ≤ A < MAP_SIZE k -> 0 ≤ B < MAP_SIZE k ->
  let rt' := run rt (edge_code A ++ edge_code B) in
  let edge := Z.lxor (Z.shiftr A 1) B in
  0 ≤ edge < MAP_SIZE k ∧
  (∀ x, memory rt' x =
        hit (bitmap + edge) (hit (bitmap + Z.lxor PrevLocation A) (memory rt))
            x) ∧
  globals rt' "__afl_prev_loc" = Z.shiftr B 1.
Proof.
  intros Hk prev bitmap Hprev HA HB rt' edge.
  pose proof (MAP_SIZE_bound k Hk) as HMS.
  assert (Hhalf : 0 ≤ Z.shiftr A 1 < MAP_SIZE k).
  { split; [apply Z.shiftr_nonneg; lia|].
    rewrite Z.shiftr_div_pow2 by lia.
    assert (A / 2 ^ 1 ≤ A); [|lia]. apply Z.div_le_upper_bound; lia. }
  assert (Hpow : MAP_SIZE k = 2 ^ Z.of_N (Z.to_N k)).
  { rewrite MAP_SIZE_pow2 by lia. f_equal. lia. }
  destruct (edge_code_run A rt ltac:(fold prev; lia) ltac:(lia))
    as (Hm1 & Hg1 & _).
  set (rt1 := run rt (edge_code A)) in *.
  assert (Hp1 : globals rt1 "__afl_prev_loc" = Z.shiftr A 1) by (by rewrite Hg1).
  assert (Hb1 : globals rt1 "__afl_area_ptr" = bitmap) by (by rewrite Hg1).
  destruct (edge_code_run B rt1 ltac:(rewrite Hp1; lia) ltac:(lia))
    as (Hm2 & Hg2 & _).
  rewrite Hp1, Hb1 in Hm2. fold edge in Hm2.
  unfold rt'. rewrite run_app. fold rt1. split; [|split].
  - unfold edge. rewrite Hpow. apply Z_lxor_range; rewrite <- Hpow; done.
  - intros x. rewrite Hm2. unfold hit at 1.
    destruct (decide (x = bitmap + edge)) as [->|Hne].
    + rewrite Hm1. unfold hit. fold prev bitmap.
      case_decide as Hc; [by rewrite <- Hc|done].
    + rewrite Hm1. unfold hit. fold prev bitmap.
      case_decide as Hc; [by rewrite <- Hc|done].
  - by rewrite Hg2.
Qed.

Lemma edge_is_recorded_witness :
  memory (run sample_runtime (edge_code 6 ++ edge_code 5)) 6 = 2.
Proof.
  destruct (edge_is_recorded 16 6 5 sample_runtime ltac:(lia)
              ltac:(vm_compute; split; [discriminate|reflexivity])
              ltac:(vm_compute; split; [discriminate|reflexivity])
              ltac:(vm_compute; split; [discriminate|reflexivity]))
    as (_ & Hmem & _).
  exact (Hmem 6).
Defined.

(** ** The calls against their prototypes *)

Lemma CreateIntCast_type (V : Value) (T : Ty) (s : bool) :
  getType (CreateIntCast V T s).1 = T.
Proof. unfold CreateIntCast. by case_decide. Qed.

Lemma fits_prototype_other (i : Instruction) :
  is_collector_call i = false -> fits_prototype i.
Proof.
  destruct i as [|?|f args| | | | |]; try done. cbn.
  intros Hf%bool_decide_eq_false. split; intros ->; destruct Hf; auto.
Qed.

Lemma fits_prototype_distance (id : Z) (Case D : Value) :
  getType Case = Int32Ty -> getType D = Int32Ty ->
  fits_prototype (insert_distance id Case D).
Proof.
  intros HC HD. split; [done|]. intros _. split; [done|].
  by repeat constructor.
Qed.

Lemma switch_cases_prototype (id : Z) (Cond : Value) (Labels : list Z)
    (cs : list Value) :
  ∀ (Inc : nat) (D : Value),
    getType D = Int32Ty ->
    Forall fits_prototype (switch_cases id Cond Labels cs Inc D).1 ∧
    getType (switch_cases id Cond Labels cs Inc D).2 = Int32Ty.
Proof.
  induction cs as [|v cs IH]; intros Inc D HD; [by split|].
  cbn [switch_cases].
  pose proof (CreateIntCast_calls (BinaryOperator Xor Cond v) Int32Ty false)
    as Hc.
  pose proof (CreateIntCast_type (BinaryOperator Xor Cond v) Int32Ty false)
    as Ht.
  destruct (CreateIntCast (BinaryOperator Xor Cond v) Int32Ty false)
    as [Dist cast]. cbn [fst snd] in Hc, Ht.
  destruct (IH (S Inc)
              (BinaryOperator Add D (ICmpInst ICMP_NE Dist (ConstantInt 32 0)))
              HD) as [Hcode Hty].
  destruct (switch_cases id Cond Labels cs (S Inc) _) as [code D2].
  cbn [fst snd] in *. split; [|done].
  apply Forall_app. split; [by repeat constructor|].
  apply Forall_app. split.
  { eapply Forall_impl; [exact Hc|]. apply fits_prototype_other. }
  apply Forall_app. split; [|done].
  apply Forall_cons. split; [by apply fits_prototype_distance|].
  by repeat constructor.
Qed.

Lemma switch_code_prototype (id : Z) (ops : list Value) :
  Forall fits_prototype (switch_code id ops).
Proof.
  unfold switch_code. case_decide; [|constructor].
  destruct (switch_cases_prototype id (getCondition ops) (compute_labels ops)
              (cases ops) 0 (ConstantInt 32 0) eq_refl) as [Hcode Hty].
  destruct (switch_cases id _ _ _ _ _) as [code D]. cbn [fst snd] in *.
  apply Forall_app. split; [done|].
  apply Forall_cons. split; [done|].
  apply Forall_cons. split; [by apply fits_prototype_distance|constructor].
Qed.

Lemma icmp_code_prototype (id : Z) (A0 A1 : Value) :
  Forall fits_prototype (icmp_code id A0 A1).
Proof.
  unfold icmp_code. destruct (isIntegerTy _); [|constructor].
  case_decide; [|constructor].
  pose proof (CreateIntCast_calls (BinaryOperator Xor A0 A1) Int32Ty false)
    as Hc.
  pose proof (CreateIntCast_type (BinaryOperator Xor A0 A1) Int32Ty false)
    as Ht.
  destruct (CreateIntCast (BinaryOperator Xor A0 A1) Int32Ty false)
    as [Dist cast]. cbn [fst snd] in Hc, Ht.
  apply Forall_app. split; [by repeat constructor|].
  apply Forall_app. split.
  { eapply Forall_impl; [exact Hc|]. apply fits_prototype_other. }
  apply Forall_cons. split; [by apply fits_prototype_distance|constructor].
Qed.

Lemma for_each_Forall {S A B} (Q : A -> Prop) (P : B -> Prop)
    (f : S -> A -> S * B) (l : list A) :
  (∀ s a, Q a -> P (f s a).2) -> Forall Q l ->
  ∀ s, Forall P (for_each f s l).2.
Proof.
  intros Hf Hl. induction Hl as [|a l Ha _ IH]; intros s; [constructor|].
  cbn [for_each]. pose proof (Hf s a Ha) as Hb. destruct (f s a) as [s1 b].
  specialize (IH s1). destruct (for_each f s1 l) as [s2 bs].
  by constructor.
Qed.

Lemma instrument_block_prototype (k : Z) (w : World) (r : Z)
    (st : PassState) (bb : BasicBlock) :
  uninstrumented bb ->
  Forall fits_prototype (instrument_block k w r st bb).2.
Proof.
  intros Hbb.
  assert (Horig : Forall fits_prototype bb).
  { eapply Forall_impl; [exact Hbb|]. apply fits_prototype_other. }
  destruct (decide (r ≤ AFL_R 100 (random w (rand_calls st)))) as [Hs|Hs].
  { by rewrite instrument_block_skipped. }
  destruct (instrument_block_perm k w r st bb ltac:(lia)) as (code & -> & Hc).
  constructor.
  { split; [|done]. intros _. split; [done|]. by repeat constructor. }
  apply Forall_app. split; [|apply Forall_app; split; [|done]].
  - destruct Hc as [->|[(ops & ->)|(A0 & A1 & ->)]];
      [constructor|apply switch_code_prototype|apply icmp_code_prototype].
  - rewrite edge_code_eq. by repeat constructor.
Qed.

(** X11.  Every call to the collector in the module the pass produces fits
    the prototype the pass declares: [insert_block] gets one argument,
    [insert_distance] three, and every argument is a 32-bit integer, the
    distance included whatever the width of the compared values. *)
Theorem calls_fit_prototypes (k : Z) (w : World) (r : Z) (st : PassState)
    (M : Module) :
  Forall uninstrumented (concat M) ->
  Forall (Forall fits_prototype) (concat (instrument_module k w r st M).2).
Proof.
  intros HM.
  pose proof (instrument_module_blocks k w r st M) as Hc.
  apply (f_equal snd) in Hc. cbn [snd] in Hc. rewrite <- Hc. clear Hc.
  revert st. apply (for_each_Forall uninstrumented); [|done].
  intros s bb. apply instrument_block_prototype.
Qed.

Lemma calls_fit_prototypes_witness :
  Forall (Forall fits_prototype)
    (concat (instrument_module 16 sample_world 100 fresh_state
               sample_module).2).
Proof.
  apply (calls_fit_prototypes 16 sample_world 100 fresh_state sample_module
           ltac:(repeat constructor)).
Defined.

(** ** A run that instruments nothing *)

Lemma blocks_none_sampled (k : Z) (w : World) (r : Z)
    (bbs : list BasicBlock) :
  ∀ st : PassState,
    inst_blocks (for_each (instrument_block k w r) st bbs).1 = inst_blocks st ->
    (for_each (instrument_block k w r) st bbs).2 = bbs ∧
    CurId (for_each (instrument_block k w r) st bbs).1 = CurId st.
Proof.
  induction bbs as [|bb bbs IH]; intros st; [done|].
  cbn [for_each].
  destruct (decide (r ≤ AFL_R 100 (random w (rand_calls st)))) as [Hs|Hs].
  - rewrite instrument_block_skipped by done.
    specialize (IH {| CurId := CurId st; inst_blocks := inst_blocks st;
                      rand_calls := S (rand_calls st) |}).
    destruct (for_each _ _ bbs) as [st2 bs]. cbn [fst snd] in *.
    intros Hib. destruct (IH Hib) as [-> ->]. done.
  - rewrite instrument_block_sampled by lia.
    set (st1 := {| CurId := wrap32 (CurId st + 1);
                   inst_blocks := inst_blocks st + 1;
                   rand_calls := S (S (rand_calls st)) |}).
    destruct (blocks_state k w r bbs st1) as (n & _ & Hib & _).
    destruct (for_each _ st1 bbs) as [st2 bs]. cbn [fst snd] in *.
    unfold st1 in Hib. cbn [inst_blocks] in Hib. intros Hno. lia.
Qed.


Lemma module_shape (k : Z) (w : World) (r : Z) (st : PassState)
    (M : Module) :
  Forall2 (fun F F' : Function => length F = length F') M
          (instrument_module k w r st M).2.
Proof.
  unfold instrument_module. revert st. apply for_each_Forall2.
  intros s F. symmetry. apply blocks_length.
Qed.

Lemma concat_same_shape {A} (M M' : list (list A)) :
  Forall2 (fun F F' => length F = length F') M M' ->
  concat M' = concat M -> M' = M.
Proof.
  induction 1 as [|F F' M M' HF _ IH]; [done|]. cbn [concat]. intros Hc.
  apply app_inj_1 in Hc as [-> Hc]; [|done]. by rewrite (IH Hc).
Qed.

(** X12.  A run that succeeds and instruments no block inserts nothing:
    every block of every function body is after the pass what it was before
    it, and the counter file gets back the counter that was read from it,
    the rest of the file left alone. *)
Theorem nothing_sampled_nothing_changed (k : Z) (w : World) (M : Module)
    (r : Z) (file : list Z) :
  decide_ratio (AFL_INST_RATIO w) = Done r ->
  open_ok w = true -> write_ok w = true ->
  cur_id_file w = Some file -> (4 ≤ length file)%nat ->
  let prior := u32_of_bytes (take 4 file) in
  inst_blocks (instrument_module k w r
                 {| CurId := prior; inst_blocks := 0; rand_calls := 0 |} M).1
    = 0 ->
  ∃ (M' : Module) (file' : list Z),
    runOnModule k w M = Done (M', file') ∧
    (∀ (i j : nat) (F : Function) (bb : BasicBlock),
       M !! i = Some F -> F !! j = Some bb ->
       ∃ F' : Function, M' !! i = Some F' ∧ F' !! j = Some bb) ∧
    u32_of_bytes (take 4 file') = prior ∧ drop 4 file' = drop 4 file.
Proof.
  intros Hr Hopen Hwrite Hfile Hlen prior Hnone.
  set (st0 := {| CurId := prior; inst_blocks := 0; rand_calls := 0 |}) in *.
  pose proof (instrument_module_blocks k w r st0 M) as Hc.
  destruct (blocks_none_sampled k w r (concat M) st0) as [Hsame Hid].
  { rewrite Hc. cbn [fst]. exact Hnone. }
  rewrite Hc in Hsame, Hid. cbn [fst snd] in Hsame, Hid.
  assert (HM : (instrument_module k w r st0 M).2 = M).
  { apply concat_same_shape; [apply module_shape|done]. }
  exists M, (bytes_of_u32 prior ++ drop 4 file). split; [|split; [|split]].
  - rewrite (runOnModule_done k w M r file Hr Hopen Hwrite Hfile Hlen).
    fold prior st0. by rewrite HM, Hid.
  - intros i j F bb HF Hbb. by exists F.
  - rewrite (take_app_length' (bytes_of_u32 _)) by done.
    apply u32_bytes_roundtrip, prior_range, Hlen.
  - by rewrite (drop_app_length' (bytes_of_u32 _)).
Qed.

Lemma nothing_sampled_nothing_changed_witness :
  ∃ (M' : Module) (file' : list Z),
    runOnModule 16 quiet_world sample_module = Done (M', file') ∧
    (∃ F' : Function,
       M' !! 1%nat = Some F' ∧ F' !! 0%nat = Some switch_block) ∧
    u32_of_bytes (take 4 file') = 5.
Proof.
  destruct (nothing_sampled_nothing_changed 16 quiet_world sample_module 1
              [5; 0; 0; 0] eq_refl eq_refl eq_refl eq_refl
              ltac:(simpl; lia) eq_refl)
    as (M' & file' & Hrun & Hsame & Hread & _).
  exists M', file'. split; [exact Hrun|]. split; [|exact Hread].
  apply (Hsame 1%nat 0%nat [switch_block] switch_block eq_refl eq_refl).
Defined.
